(** * Connect-Four environment: shallow embedding of [connect4Env.py]

    The class [Connect4Env] is embedded as a record holding its instance
    attributes; every method becomes a function on that record.  A method
    that mutates [self] returns the new record next to its Python result.
    A raised Python exception (IndexError from an array access, ValueError
    from [np.zeros]) is [None] in the [option] monad.

    The framework objects [action_space] and [observation_space] are built
    by the [gym] package, which the methods below never read; they are not
    part of the record. *)

From Stdlib Require Import ZArith List Bool Lia.
From stdpp Require Import base option list sorting gmap strings pretty.

Local Open Scope Z_scope.

(** ** Python and NumPy primitives *)

(** Storage in an array of dtype [np.int8]: two's complement wrap-around.
    The value is exact for a Python int in [-128, 127], the only kind
    [step] ever stores (1 and -1).  Outside that range NumPy 1 wraps as
    written here, NumPy 2 raises OverflowError; nothing below stores such a
    value. *)
Definition int8 (z : Z) : Z := ((z + 128) `mod` 256 - 128)%Z.

(** [range(lo, hi)] *)
Definition py_range (lo hi : Z) : list Z :=
  map (λ k : nat, (lo + Z.of_nat k)%Z) (seq 0 (Z.to_nat (hi - lo))).

(** [range(start, stop, -1)] *)
Definition py_range_down (start stop : Z) : list Z :=
  map (λ k : nat, (start - Z.of_nat k)%Z) (seq 0 (Z.to_nat (start - stop))).

(** NumPy index normalisation along an axis of length [n]: a negative
    index counts from the end, anything outside [-n, n) is an IndexError. *)
Definition np_index (n : nat) (i : Z) : option nat :=
  if bool_decide (0 ≤ i < Z.of_nat n)%Z then Some (Z.to_nat i)
  else if bool_decide (- Z.of_nat n ≤ i < 0)%Z then Some (Z.to_nat (i + Z.of_nat n))
  else None.

(** [np.zeros((r, c), dtype=np.int8)]; a negative dimension is a ValueError. *)
Definition np_zeros (r c : Z) : option (list (list Z)) :=
  if bool_decide (0 ≤ r ∧ 0 ≤ c)%Z
  then Some (replicate (Z.to_nat r) (replicate (Z.to_nat c) 0%Z))
  else None.

(** [b[r, c]] *)
Definition getitem (b : list (list Z)) (r c : Z) : option Z :=
  i ← np_index (length b) r;
  l ← b !! i;
  j ← np_index (length l) c;
  l !! j.

(** [b[r, c] = v] *)
Definition setitem (b : list (list Z)) (r c v : Z) : option (list (list Z)) :=
  i ← np_index (length b) r;
  l ← b !! i;
  j ← np_index (length l) c;
  Some (<[i := <[j := int8 v]> l]> b).

(** [b[r, :]] *)
Definition getrow (b : list (list Z)) (r : Z) : option (list Z) :=
  i ← np_index (length b) r;
  b !! i.

(** ** The environment *)

Record Connect4Env := mkEnv {
  rows : Z;
  cols : Z;
  win_length : Z;
  board : list (list Z);
  current_player : Z
}.

Definition set_board (s : Connect4Env) (b : list (list Z)) : Connect4Env :=
  mkEnv (rows s) (cols s) (win_length s) b (current_player s).

Definition set_current_player (s : Connect4Env) (p : Z) : Connect4Env :=
  mkEnv (rows s) (cols s) (win_length s) (board s) p.

(** What [step] returns.  The rewards are the float literals [-10.0],
    [0.0] and [1.0]; all three are integers and are kept as such. *)
Record StepResult := mkResult {
  obs : list (list Z);
  reward : Z;
  done : bool;
  info : gmap string string
}.

(** [Connect4Env(rows, cols, win_length)].  The two [gym] space objects
    the constructor also builds are not modelled, so the constructor may
    reject arguments this function accepts (a [cols] of 0): the states
    built here include every state the class can build. *)
Definition __init__ (r c w : Z) : option Connect4Env :=
  b ← np_zeros r c;
  Some (mkEnv r c w b 1).

(** [Connect4Env()] with the default arguments *)
Definition default_env : option Connect4Env := __init__ 6 7 4.

Definition _get_observation (s : Connect4Env) : list (list Z) :=
  map (map (λ x, int8 (x * current_player s))) (board s).

Definition reset (s : Connect4Env) : option (list (list Z) * Connect4Env) :=
  b ← np_zeros (rows s) (cols s);
  let s1 := set_current_player (set_board s b) 1 in
  Some (_get_observation s1, s1).

(** The list comprehension of [get_valid_actions]. *)
Fixpoint valid_cols (b : list (list Z)) (cs : list Z) : option (list Z) :=
  match cs with
  | [] => Some []
  | col :: cs' =>
      v ← getitem b 0 col;
      rest ← valid_cols b cs';
      Some (if (v =? 0)%Z then col :: rest else rest)
  end.

Definition get_valid_actions (s : Connect4Env) : option (list Z) :=
  valid_cols (board s) (py_range 0 (cols s)).

Definition _is_valid_action (s : Connect4Env) (col : Z) : option bool :=
  if negb ((0 <=? col)%Z && (col <? cols s)%Z) then Some false
  else v ← getitem (board s) 0 col; Some (v =? 0)%Z.

(** The loop of [_place_piece] over the rows still to visit; the result is
    the returned row ([None] for Python's [None]) and the board. *)
Fixpoint place_loop (b : list (list Z)) (col player : Z) (rs : list Z)
  : option (option Z * list (list Z)) :=
  match rs with
  | [] => Some (None, b)
  | r :: rs' =>
      v ← getitem b r col;
      if (v =? 0)%Z then
        b' ← setitem b r col player;
        Some (Some r, b')
      else place_loop b col player rs'
  end.

Definition _place_piece (s : Connect4Env) (col player : Z)
  : option (option Z * Connect4Env) :=
  '(r, b') ← place_loop (board s) col player (py_range_down (rows s - 1) (-1));
  Some (r, set_board s b').

(** One of the two inner loops of [_check_win_from_move]: [probe i] is the
    cell visited at step [i], [count] the running counter; the loop stops
    at the first probe that is off the board or not the player's. *)
Fixpoint count_loop (s : Connect4Env) (probe : Z → Z * Z) (player : Z)
    (count : Z) (steps : list Z) : option Z :=
  match steps with
  | [] => Some count
  | i :: steps' =>
      let '(r, c) := probe i in
      if (0 <=? r)%Z && (r <? rows s)%Z && (0 <=? c)%Z && (c <? cols s)%Z then
        v ← getitem (board s) r c;
        if (v =? player)%Z then count_loop s probe player (count + 1)%Z steps'
        else Some count
      else Some count
  end.

Definition directions : list (Z * Z) := [(0, 1); (1, 0); (1, 1); (1, -1)]%Z.

(** The outer loop of [_check_win_from_move] over the directions. *)
Fixpoint check_dirs (s : Connect4Env) (row col player : Z) (ds : list (Z * Z))
  : option bool :=
  match ds with
  | [] => Some false
  | (dr, dc) :: ds' =>
      c1 ← count_loop s (λ i, (row + i * dr, col + i * dc)%Z) player 1
             (py_range 1 (win_length s));
      c2 ← count_loop s (λ i, (row - i * dr, col - i * dc)%Z) player c1
             (py_range 1 (win_length s));
      if (win_length s <=? c2)%Z then Some true
      else check_dirs s row col player ds'
  end.

Definition _check_win_from_move (s : Connect4Env) (row : option Z) (col player : Z)
  : option bool :=
  match row with
  | None => Some false
  | Some r => check_dirs s r col player directions
  end.

(** [np.all(self.board[0, :] != 0)] *)
Definition _is_draw (s : Connect4Env) : option bool :=
  top ← getrow (board s) 0;
  Some (forallb (λ v, negb (v =? 0)%Z) top).

Definition invalid_move_info (s : Connect4Env) : gmap string string :=
  {[ "error" := "Invalid move by player " +:+ pretty (current_player s) ]}.

Definition failed_place_info (s : Connect4Env) : gmap string string :=
  {[ "error" := "Failed to place piece by player " +:+ pretty (current_player s) ]}.

Definition step (s : Connect4Env) (action_col : Z) : option (StepResult * Connect4Env) :=
  valid ← _is_valid_action s action_col;
  if negb valid then
    Some (mkResult (_get_observation s) (-10) true (invalid_move_info s), s)
  else
    let player_who_moved := current_player s in
    '(row_placed, s1) ← _place_piece s action_col player_who_moved;
    match row_placed with
    | None =>
        Some (mkResult (_get_observation s1) (-10) true (failed_place_info s1), s1)
    | Some _ =>
        win ← _check_win_from_move s1 row_placed action_col player_who_moved;
        if (win : bool) then Some (mkResult (_get_observation s1) 1 true ∅, s1)
        else
          draw ← _is_draw s1;
          if (draw : bool) then Some (mkResult (_get_observation s1) 0 true ∅, s1)
          else
            let s2 := set_current_player s1 (current_player s1 * -1) in
            Some (mkResult (_get_observation s2) 0 false ∅, s2)
    end.

(** A run of [step] calls, threading the state; the results are collected. *)
Fixpoint run_steps (s : Connect4Env) (actions : list Z)
  : option (list StepResult * Connect4Env) :=
  match actions with
  | [] => Some ([], s)
  | a :: actions' =>
      '(res, s1) ← step s a;
      '(rest, s2) ← run_steps s1 actions';
      Some (res :: rest, s2)
  end.

(** ** The grid read as a partial function, and the state invariants *)

(** The cell in row [r], column [c], counted from the top-left corner;
    [None] off the grid.  Unlike [getitem] there is no wrap-around. *)
Definition cell (b : list (list Z)) (r c : Z) : option Z :=
  if bool_decide (0 ≤ r ∧ 0 ≤ c) then
    l ← b !! Z.to_nat r; l !! Z.to_nat c
  else None.

(** The array has the shape that [__init__] and [reset] give it. *)
Definition well_shaped (s : Connect4Env) : Prop :=
  0 ≤ rows s ∧ 0 ≤ cols s ∧
  length (board s) = Z.to_nat (rows s) ∧
  Forall (λ l : list Z, length l = Z.to_nat (cols s)) (board s).

Definition valid_player (s : Connect4Env) : Prop :=
  current_player s = 1 ∨ current_player s = -1.

Definition cells_ok (s : Connect4Env) : Prop :=
  ∀ r c v, cell (board s) r c = Some v → v = -1 ∨ v = 0 ∨ v = 1.

(** No empty cell below an occupied one (row indices grow downwards). *)
Definition gravity (s : Connect4Env) : Prop :=
  ∀ r r' c v v',
    cell (board s) r c = Some v → v ≠ 0 → r ≤ r' →
    cell (board s) r' c = Some v' → v' ≠ 0.

(** States an instance can be in: built by the constructor, then driven
    through [reset] and [step]. *)
Inductive reachable : Connect4Env → Prop :=
| reach_init r c w s : __init__ r c w = Some s → reachable s
| reach_reset s o s' : reachable s → reset s = Some (o, s') → reachable s'
| reach_step s a res s' : reachable s → step s a = Some (res, s') → reachable s'.

(** [col] is a column [step] rejects: off the board, or its top cell is taken. *)
Definition illegal (s : Connect4Env) (col : Z) : Prop :=
  ¬ (0 ≤ col < cols s) ∨
  (0 ≤ col < cols s ∧ ∃ v, cell (board s) 0 col = Some v ∧ v ≠ 0).

(** [col] is a column [step] accepts: on the board with an empty top cell. *)
Definition legal (s : Connect4Env) (col : Z) : Prop :=
  0 ≤ col < cols s ∧ cell (board s) 0 col = Some 0.

(** ** What the win and draw checks look for *)

(** The cell [(r, c)] is on the board and holds a piece of [player]. *)
Definition holds (s : Connect4Env) (player r c : Z) : Prop :=
  0 ≤ r < rows s ∧ 0 ≤ c < cols s ∧ cell (board s) r c = Some player.

(** An unbroken line of at least [win_length] cells of [player] that runs
    through [(row, col)] along the axis [d]: [a] cells on the positive
    side, [b] on the negative side, and the cell itself. *)
Definition line_through (s : Connect4Env) (player row col : Z) (d : Z * Z) : Prop :=
  ∃ a b, 0 ≤ a ∧ 0 ≤ b ∧ win_length s ≤ a + b + 1 ∧
    ∀ i, - b ≤ i ≤ a → holds s player (row + i * d.1) (col + i * d.2).

(** The same line found by walking at most [win_length - 1] steps on
    either side of [(row, col)]. *)
Definition line_within (s : Connect4Env) (player row col : Z) (d : Z * Z) : Prop :=
  ∃ a b, 0 ≤ a ≤ Z.max 0 (win_length s - 1) ∧
         0 ≤ b ≤ Z.max 0 (win_length s - 1) ∧
         win_length s ≤ a + b + 1 ∧
    ∀ i, - b ≤ i ≤ a → holds s player (row + i * d.1) (col + i * d.2).

(** Every cell of the top row is occupied. *)
Definition top_row_full (s : Connect4Env) : Prop :=
  ∀ c, 0 ≤ c < cols s → ∃ v, cell (board s) 0 c = Some v ∧ v ≠ 0.

(** The four axes of the game, each by the step it takes along (row,
    column): left to right, top to bottom, and the two diagonals. *)
Definition horizontal : Z * Z := (0, 1).
Definition vertical : Z * Z := (1, 0).
Definition diagonal : Z * Z := (1, 1).
Definition anti_diagonal : Z * Z := (1, -1).

Definition is_axis (d : Z * Z) : Prop :=
  d = horizontal ∨ d = vertical ∨ d = diagonal ∨ d = anti_diagonal.

(** One of the four axes carries a line of [player] through [(row, col)]. *)
Definition wins_at (s : Connect4Env) (player row col : Z) : Prop :=
  line_through s player row col horizontal ∨
  line_through s player row col vertical ∨
  line_through s player row col diagonal ∨
  line_through s player row col anti_diagonal.

(** The same, with the line found within [win_length - 1] steps of
    [(row, col)] on either side. *)
Definition wins_within (s : Connect4Env) (player row col : Z) : Prop :=
  line_within s player row col horizontal ∨
  line_within s player row col vertical ∨
  line_within s player row col diagonal ∨
  line_within s player row col anti_diagonal.

(** [row] is the lowest empty cell of column [col]: it is empty and every
    cell below it is occupied. *)
Definition lands_on (s : Connect4Env) (col row : Z) : Prop :=
  0 ≤ row < rows s ∧
  cell (board s) row col = Some 0 ∧
  ∀ r, row < r < rows s → ∃ v, cell (board s) r col = Some v ∧ v ≠ 0.

(** The position [s] with a piece of the player to move put on
    [(row, col)]; the turn is not handed over. *)
Definition with_piece (s : Connect4Env) (row col : Z) : Connect4Env :=
  set_board s
    match board s !! Z.to_nat row with
    | Some l => <[Z.to_nat row := <[Z.to_nat col := current_player s]> l]> (board s)
    | None => board s
    end.

(** Dropping a piece on the legal column [a], where it lands on [row],
    makes no line on any axis and leaves a cell of the top row empty. *)
Definition continuing (s : Connect4Env) (a row : Z) : Prop :=
  legal s a ∧ lands_on s a row ∧
  ¬ wins_at (with_piece s row a) (current_player s) row a ∧
  ¬ top_row_full (with_piece s row a).

(** ** The outcome of a legal step *)

(** [s1] is [s] with one more piece of the player to move, resting in
    [(row, col)]: the lowest empty cell of the column. *)
Record placed_at (s s1 : Connect4Env) (row col : Z) : Prop := {
  pl_rows : rows s1 = rows s;
  pl_cols : cols s1 = cols s;
  pl_win_length : win_length s1 = win_length s;
  pl_player : current_player s1 = current_player s;
  pl_shape : well_shaped s1;
  pl_row : 0 ≤ row < rows s;
  pl_col : 0 ≤ col < cols s;
  pl_empty : cell (board s) row col = Some 0;
  pl_below : ∀ r', row < r' < rows s → ∃ v, cell (board s) r' col = Some v ∧ v ≠ 0;
  pl_here : cell (board s1) row col = Some (current_player s);
  pl_frame : ∀ r' c', (r', c') ≠ (row, col) →
               cell (board s1) r' c' = cell (board s) r' c'
}.

(** The three outcomes of a legal step. *)
Definition outcome (s1 : Connect4Env) (win draw : bool) : StepResult * Connect4Env :=
  if win then (mkResult (_get_observation s1) 1 true ∅, s1)
  else if draw then (mkResult (_get_observation s1) 0 true ∅, s1)
  else
    let s2 := set_current_player s1 (current_player s1 * -1) in
    (mkResult (_get_observation s2) 0 false ∅, s2).

(** ** Invariants *)

Definition trit (v : Z) : Prop := v = -1 ∨ v = 0 ∨ v = 1.

Definition env_inv (s : Connect4Env) : Prop :=
  well_shaped s ∧ valid_player s ∧ cells_ok s ∧ gravity s.

(** ** Sample positions *)

(** The default board right after construction. *)
Definition fresh : Connect4Env :=
  mkEnv 6 7 4 (replicate 6 (replicate 7 0)) 1.

(** Player one to move with three of their pieces stacked in column 0. *)
Definition three_stacked : Connect4Env :=
  mkEnv 6 7 4
    [ [0; 0; 0; 0; 0; 0; 0];
      [0; 0; 0; 0; 0; 0; 0];
      [0; 0; 0; 0; 0; 0; 0];
      [1; -1; 0; 0; 0; 0; 0];
      [1; -1; 0; 0; 0; 0; 0];
      [1; -1; 0; 0; 0; 0; 0] ] 1.

(** [three_stacked] after player one has dropped a fourth piece on column 0. *)
Definition four_stacked : Connect4Env :=
  mkEnv 6 7 4
    [ [0; 0; 0; 0; 0; 0; 0];
      [0; 0; 0; 0; 0; 0; 0];
      [1; 0; 0; 0; 0; 0; 0];
      [1; -1; 0; 0; 0; 0; 0];
      [1; -1; 0; 0; 0; 0; 0];
      [1; -1; 0; 0; 0; 0; 0] ] 1.

(** Player one to move with two of their pieces stacked in column 0. *)
Definition two_stacked : Connect4Env :=
  mkEnv 6 7 4
    [ [0; 0; 0; 0; 0; 0; 0];
      [0; 0; 0; 0; 0; 0; 0];
      [0; 0; 0; 0; 0; 0; 0];
      [0; 0; 0; 0; 0; 0; 0];
      [1; -1; 0; 0; 0; 0; 0];
      [1; -1; 0; 0; 0; 0; 0] ] 1.

(** The default board after player one has opened on column 3. *)
Definition after_one : Connect4Env :=
  mkEnv 6 7 4
    [ [0; 0; 0; 0; 0; 0; 0];
      [0; 0; 0; 0; 0; 0; 0];
      [0; 0; 0; 0; 0; 0; 0];
      [0; 0; 0; 0; 0; 0; 0];
      [0; 0; 0; 0; 0; 0; 0];
      [0; 0; 0; 1; 0; 0; 0] ] (-1).

(** ... and player two has answered on the same column. *)
Definition after_two : Connect4Env :=
  mkEnv 6 7 4
    [ [0; 0; 0; 0; 0; 0; 0];
      [0; 0; 0; 0; 0; 0; 0];
      [0; 0; 0; 0; 0; 0; 0];
      [0; 0; 0; 0; 0; 0; 0];
      [0; 0; 0; -1; 0; 0; 0];
      [0; 0; 0; 1; 0; 0; 0] ] 1.

(** A 2×2 board with [win_length] 3, one move before the top row fills. *)
Definition nearly_full : Connect4Env :=
  mkEnv 2 2 3 [ [1; 0]; [-1; 1] ] (-1).

(** [nearly_full] after player two has taken the last open column. *)
Definition drawn : Connect4Env :=
  mkEnv 2 2 3 [ [1; -1]; [-1; 1] ] (-1).

(** ** Notions for the further properties *)

(** Every cell of column [col] is occupied. *)
Definition column_full (s : Connect4Env) (col : Z) : Prop :=
  ∀ r, 0 ≤ r < rows s → ∃ v, cell (board s) r col = Some v ∧ v ≠ 0.

(** Every cell of the board is occupied. *)
Definition board_full (s : Connect4Env) : Prop :=
  ∀ r c, 0 ≤ r < rows s → 0 ≤ c < cols s →
         ∃ v, cell (board s) r c = Some v ∧ v ≠ 0.

(** The number of occupied cells. *)
Definition occupied (b : list (list Z)) : nat :=
  sum_list_with (λ l : list Z, length (filter (λ v, v ≠ 0) l)) b.

(** Somewhere on the board [win_length] cells in a row, along one of the
    four axes (horizontal, vertical, diagonal, anti-diagonal), hold pieces
    of one player. *)
Definition has_line (s : Connect4Env) : Prop :=
  ∃ p r c d, p ≠ 0 ∧ is_axis d ∧
    ∀ i, 0 ≤ i < win_length s → holds s p (r + i * d.1) (c + i * d.2).

(** The number of cells holding a piece of player [p]. *)
Definition pieces_of (p : Z) (b : list (list Z)) : nat :=
  sum_list_with (λ l : list Z, length (filter (λ v, v = p) l)) b.

(** * Proofs *)

Ltac shape_tac :=
  unfold well_shaped; simpl; split_and!; [lia | lia | reflexivity | repeat constructor].

Ltac player_tac := unfold valid_player; simpl; lia.

Ltac legal_tac := unfold legal; simpl; split; [lia | reflexivity].

(** [Hl] says the cells at the offsets of a line hold the player; the
    cell at offset [i] is off the board or holds something else. *)
Ltac off_line Hl i :=
  let Hr := fresh "Hr" in
  let Hc := fresh "Hc" in
  let Hcell := fresh "Hcell" in
  destruct (Hl i) as (Hr & Hc & Hcell);
  [ lia
  | first [ simpl in Hr, Hc; lia
          | vm_compute in Hcell; discriminate ] ].

(** The results of running [cs] from [s], evaluated. *)
Tactic Notation "run_results" constr(s) constr(cs) :=
  let t := eval vm_compute in
    (match run_steps s cs with Some (rs, _) => rs | None => [] end) in
  exact t.

(** ** Arrays *)

Lemma np_index_nonneg (n : nat) (i : Z) :
  0 ≤ i → np_index n i = if bool_decide (i < Z.of_nat n) then Some (Z.to_nat i) else None.
Proof.
  intros Hi. unfold np_index.
  repeat case_bool_decide; try reflexivity; lia.
Qed.

Lemma np_index_lookup {A} (l : list A) (i : Z) :
  0 ≤ i → np_index (length l) i ≫= (l !!.) = l !! Z.to_nat i.
Proof.
  intros Hi. rewrite np_index_nonneg by done.
  case_bool_decide as Hlt; simpl; [done|].
  symmetry. apply lookup_ge_None. lia.
Qed.

Lemma getitem_cell (b : list (list Z)) (r c : Z) :
  0 ≤ r → 0 ≤ c → getitem b r c = cell b r c.
Proof.
  intros Hr Hc. unfold getitem, cell.
  rewrite bool_decide_eq_true_2 by done.
  rewrite np_index_nonneg by done.
  case_bool_decide as Hlt; simpl.
  - destruct (b !! Z.to_nat r) as [l|]; simpl; [|done].
    apply (np_index_lookup l c Hc).
  - rewrite (proj2 (lookup_ge_None b (Z.to_nat r))) by lia. done.
Qed.

Lemma getrow_lookup (b : list (list Z)) (r : Z) :
  0 ≤ r → getrow b r = b !! Z.to_nat r.
Proof. intros Hr. apply (np_index_lookup b r Hr). Qed.

Lemma cell_lookup (b : list (list Z)) (r c : Z) (v : Z) :
  cell b r c = Some v ↔
  0 ≤ r ∧ 0 ≤ c ∧ ∃ l, b !! Z.to_nat r = Some l ∧ l !! Z.to_nat c = Some v.
Proof.
  unfold cell. case_bool_decide as H.
  - destruct (b !! Z.to_nat r) as [l|]; simpl; split.
    + intros Hl. repeat split; try lia. by exists l.
    + intros (_ & _ & l' & [= <-] & Hl). done.
    + done.
    + intros (_ & _ & l' & [=] & _).
  - split; [done|]. intros (? & ? & _). lia.
Qed.

Lemma setitem_cell (b : list (list Z)) (r c x v : Z) :
  cell b r c = Some v →
  ∃ l, b !! Z.to_nat r = Some l ∧
       setitem b r c x = Some (<[Z.to_nat r := <[Z.to_nat c := int8 x]> l]> b).
Proof.
  intros (Hr & Hc & l & Hl & Hv)%cell_lookup. exists l. split; [done|].
  unfold setitem.
  pose proof (lookup_lt_Some _ _ _ Hl). pose proof (lookup_lt_Some _ _ _ Hv).
  rewrite np_index_nonneg by done. rewrite bool_decide_eq_true_2 by lia. simpl.
  rewrite Hl. simpl.
  rewrite np_index_nonneg by done. rewrite bool_decide_eq_true_2 by lia. done.
Qed.

Lemma cell_insert_eq (b : list (list Z)) (l : list Z) (r c x v : Z) :
  cell b r c = Some v → b !! Z.to_nat r = Some l →
  cell (<[Z.to_nat r := <[Z.to_nat c := x]> l]> b) r c = Some x.
Proof.
  intros (Hr & Hc & l' & Hl' & Hv)%cell_lookup Hl.
  assert (l' = l) as -> by congruence.
  pose proof (lookup_lt_Some _ _ _ Hl). pose proof (lookup_lt_Some _ _ _ Hv).
  apply cell_lookup. repeat split; try done.
  exists (<[Z.to_nat c := x]> l). split.
  - by apply list_lookup_insert_eq.
  - by apply list_lookup_insert_eq.
Qed.

Lemma cell_insert_ne (b : list (list Z)) (l : list Z) (r c x r' c' : Z) :
  0 ≤ r → 0 ≤ c → b !! Z.to_nat r = Some l → (r', c') ≠ (r, c) →
  cell (<[Z.to_nat r := <[Z.to_nat c := x]> l]> b) r' c' = cell b r' c'.
Proof.
  intros Hr Hc Hl Hne. unfold cell. case_bool_decide as H; [|done].
  destruct (decide (r' = r)) as [->|Hrr].
  - pose proof (lookup_lt_Some _ _ _ Hl).
    rewrite list_lookup_insert_eq by done. rewrite Hl. simpl.
    apply list_lookup_insert_ne. intros Heq. apply Hne. f_equal. lia.
  - rewrite list_lookup_insert_ne; [done|]. lia.
Qed.

Lemma well_shaped_cell (s : Connect4Env) (r c : Z) :
  well_shaped s → 0 ≤ r < rows s → 0 ≤ c < cols s →
  is_Some (cell (board s) r c).
Proof.
  intros (Hr0 & Hc0 & Hlen & Hall) Hr Hc.
  destruct (lookup_lt_is_Some_2 (board s) (Z.to_nat r)) as [l Hl]; [lia|].
  pose proof (Forall_lookup_1 _ _ _ _ Hall Hl) as Hll. simpl in Hll.
  destruct (lookup_lt_is_Some_2 l (Z.to_nat c)) as [v Hv]; [lia|].
  exists v. apply cell_lookup. repeat split; try lia. by exists l.
Qed.

Lemma cell_well_shaped (s : Connect4Env) (r c v : Z) :
  well_shaped s → cell (board s) r c = Some v →
  0 ≤ r < rows s ∧ 0 ≤ c < cols s.
Proof.
  intros (Hr0 & Hc0 & Hlen & Hall) (Hr & Hc & l & Hl & Hv)%cell_lookup.
  pose proof (Forall_lookup_1 _ _ _ _ Hall Hl) as Hll. simpl in Hll.
  pose proof (lookup_lt_Some _ _ _ Hl). pose proof (lookup_lt_Some _ _ _ Hv).
  lia.
Qed.

(** ** Legality *)

Lemma is_valid_action_legal (s : Connect4Env) (col : Z) :
  _is_valid_action s col = Some true ↔ legal s col.
Proof.
  unfold _is_valid_action, legal.
  destruct (0 <=? col) eqn:H0; destruct (col <? cols s) eqn:H1; simpl;
    try (split; [done | intros [? _]; lia]).
  rewrite getitem_cell by lia.
  destruct (cell (board s) 0 col) as [v|]; simpl.
  - destruct (v =? 0) eqn:Hv; split; try done.
    + intros _. split; [lia|]. f_equal. lia.
    + intros [_ [= ->]]. done.
  - split; [done|]. intros [_ [=]].
Qed.

Lemma is_valid_action_illegal (s : Connect4Env) (col : Z) :
  _is_valid_action s col = Some false ↔ illegal s col.
Proof.
  unfold _is_valid_action, illegal.
  destruct (0 <=? col) eqn:H0; destruct (col <? cols s) eqn:H1; simpl;
    try (split; [intros _; left; lia | done]).
  rewrite getitem_cell by lia.
  destruct (cell (board s) 0 col) as [v|]; simpl.
  - destruct (v =? 0) eqn:Hv; split; try done.
    + intros [?|(_ & v' & [= <-] & Hne)]; lia.
    + intros _. right. split; [lia|]. exists v. split; [done|lia].
  - split; [done|]. intros [?|(_ & v' & [=] & _)]. lia.
Qed.

(** ** Placement *)

Lemma py_range_down_succ (n : nat) :
  py_range_down (Z.of_nat (S n) - 1) (-1) =
  Z.of_nat n :: py_range_down (Z.of_nat n - 1) (-1).
Proof.
  unfold py_range_down.
  replace (Z.to_nat (Z.of_nat (S n) - 1 - -1)) with (S n) by lia.
  replace (Z.to_nat (Z.of_nat n - 1 - -1)) with n by lia.
  rewrite <- cons_seq. simpl. f_equal; [lia|].
  rewrite <- seq_shift, map_map. apply map_ext. intros k. lia.
Qed.

(** The scan from row [n - 1] upwards to row 0 of a column whose first
    [n] cells exist: either every one of them is occupied and the board is
    returned as it is, or the piece goes to the first empty cell met. *)
Lemma place_loop_down (b : list (list Z)) (col p : Z) (n : nat) :
  (∀ r, 0 ≤ r < Z.of_nat n → is_Some (cell b r col)) →
  (place_loop b col p (py_range_down (Z.of_nat n - 1) (-1)) = Some (None, b) ∧
   ∀ r, 0 ≤ r < Z.of_nat n → cell b r col ≠ Some 0)
  ∨ ∃ r l,
      0 ≤ r < Z.of_nat n ∧ cell b r col = Some 0 ∧
      (∀ r', r < r' < Z.of_nat n → cell b r' col ≠ Some 0) ∧
      b !! Z.to_nat r = Some l ∧
      place_loop b col p (py_range_down (Z.of_nat n - 1) (-1)) =
        Some (Some r, <[Z.to_nat r := <[Z.to_nat col := int8 p]> l]> b).
Proof.
  induction n as [|n IH]; intros Hcells.
  - left. split; [done|]. intros r Hr. lia.
  - rewrite py_range_down_succ. simpl.
    destruct (Hcells (Z.of_nat n)) as [v Hv]; [lia|].
    pose proof Hv as (_ & Hc & _)%cell_lookup.
    rewrite getitem_cell by lia. rewrite Hv. simpl.
    destruct (v =? 0) eqn:Hv0.
    + apply Z.eqb_eq in Hv0. subst v.
      destruct (setitem_cell b (Z.of_nat n) col p 0 Hv) as (l & Hl & Hset).
      right. exists (Z.of_nat n), l. rewrite Hset. simpl.
      repeat split; try done; lia.
    + apply Z.eqb_neq in Hv0.
      destruct IH as [[Hloop Hnone]|(r & l & Hr & Hr0 & Habove & Hl & Hloop)].
      * intros r Hr. apply Hcells. lia.
      * left. split; [done|]. intros r Hr.
        destruct (decide (r = Z.of_nat n)) as [->|Hne].
        -- rewrite Hv. congruence.
        -- apply Hnone. lia.
      * right. exists r, l. repeat split; try done; try lia.
        intros r' Hr'. destruct (decide (r' = Z.of_nat n)) as [->|Hne].
        -- rewrite Hv. congruence.
        -- apply Habove. lia.
Qed.

Lemma place_piece_legal (s : Connect4Env) (col p : Z) :
  well_shaped s → legal s col →
  ∃ row l,
    0 ≤ row < rows s ∧ cell (board s) row col = Some 0 ∧
    (∀ r', row < r' < rows s → cell (board s) r' col ≠ Some 0) ∧
    board s !! Z.to_nat row = Some l ∧
    _place_piece s col p =
      Some (Some row,
            set_board s (<[Z.to_nat row := <[Z.to_nat col := int8 p]> l]> (board s))).
Proof.
  intros Hws [Hcol Htop].
  pose proof (cell_well_shaped _ _ _ _ Hws Htop) as [Hrows _].
  destruct (place_loop_down (board s) col p (Z.to_nat (rows s)))
    as [[_ Hnone]|(r & l & Hr & Hr0 & Habove & Hl & Hloop)].
  - intros r Hr. apply well_shaped_cell; [done|lia|done].
  - exfalso. apply (Hnone 0); [lia|done].
  - exists r, l. rewrite Z2Nat.id in * by lia.
    repeat split; try done; try lia.
    unfold _place_piece. rewrite Hloop. done.
Qed.

Lemma well_shaped_insert (s : Connect4Env) (i j : nat) (l : list Z) (x : Z) :
  well_shaped s → board s !! i = Some l →
  well_shaped (set_board s (<[i := <[j := x]> l]> (board s))).
Proof.
  intros (Hr0 & Hc0 & Hlen & Hall) Hl. unfold well_shaped. simpl.
  repeat split; try done.
  - by rewrite length_insert.
  - apply Forall_insert; [done|]. rewrite length_insert.
    apply (Forall_lookup_1 _ _ _ _ Hall Hl).
Qed.

(** ** The win check *)

Lemma line_within_through (s : Connect4Env) (player row col : Z) (d : Z * Z) :
  line_within s player row col d ↔ line_through s player row col d.
Proof.
  split.
  - intros (a & b & Ha & Hb & Hw & Hline). exists a, b. split_and!; try lia.
    intros i Hi. apply Hline. lia.
  - intros (a & b & Ha & Hb & Hw & Hline).
    exists (Z.min a (Z.max 0 (win_length s - 1))).
    destruct (decide (win_length s - 1 ≤ a)) as [Hbig|Hsmall].
    + exists 0. split_and!; try lia. intros i Hi. apply Hline. lia.
    + exists (Z.min b (Z.max 0 (win_length s - 1))).
      split_and!; try lia. intros i Hi. apply Hline. lia.
Qed.

Lemma py_range_lookup (lo hi : Z) (j : nat) (i : Z) :
  py_range lo hi !! j = Some i ↔ (j < Z.to_nat (hi - lo))%nat ∧ i = lo + Z.of_nat j.
Proof.
  unfold py_range. rewrite list_lookup_fmap, fmap_Some. split.
  - intros (k & [-> Hk]%lookup_seq & ->). split; [done|]. f_equal.
  - intros [Hj ->]. exists j. split; [|done]. apply lookup_seq. done.
Qed.

Lemma py_range_length (lo hi : Z) : length (py_range lo hi) = Z.to_nat (hi - lo).
Proof. unfold py_range. by rewrite length_map, length_seq. Qed.

Section WinCheck.

Context (s : Connect4Env) (Hws : well_shaped s) (p : Z).

(** An inner loop returns the counter advanced by the length of the
    leading run of probes that hit a cell of the player. *)
Lemma count_loop_run (probe : Z → Z * Z) :
  ∀ (steps : list Z) (c0 : Z),
    ∃ k : nat,
      count_loop s probe p c0 steps = Some (c0 + Z.of_nat k) ∧
      (k ≤ length steps)%nat ∧
      (∀ (j : nat) i, (j < k)%nat → steps !! j = Some i →
         holds s p (probe i).1 (probe i).2) ∧
      (∀ i, steps !! k = Some i → ¬ holds s p (probe i).1 (probe i).2).
Proof.
  induction steps as [|i steps IH]; intros c0.
  - exists 0%nat. simpl. split_and!; try done. f_equal. lia.
  - simpl. destruct (probe i) as [r c] eqn:Hprobe.
    destruct ((0 <=? r) && (r <? rows s) && (0 <=? c) && (c <? cols s)) eqn:Hin.
    + apply andb_prop in Hin as [Hin Hin4]. apply andb_prop in Hin as [Hin Hin3].
      apply andb_prop in Hin as [Hin1 Hin2].
      assert (0 ≤ r < rows s ∧ 0 ≤ c < cols s) as [Hr Hc] by lia.
      rewrite getitem_cell by lia.
      destruct (well_shaped_cell s r c Hws Hr Hc) as [v Hv]. rewrite Hv. simpl.
      destruct (v =? p) eqn:Hvp.
      * apply Z.eqb_eq in Hvp. subst v.
        destruct (IH (c0 + 1)) as (k & Hloop & Hk & Hrun & Hstop).
        exists (S k). rewrite Hloop. split_and!.
        -- f_equal. lia.
        -- simpl. lia.
        -- destruct j as [|j]; simpl; intros i' Hj Hi'.
           ++ injection Hi' as <-. rewrite Hprobe. done.
           ++ apply (Hrun j); [lia|done].
        -- simpl. apply Hstop.
      * apply Z.eqb_neq in Hvp. exists 0%nat. split_and!.
        -- f_equal. lia.
        -- simpl. lia.
        -- intros j i' Hj. lia.
        -- simpl. intros i' [= <-]. rewrite Hprobe. simpl.
           intros (_ & _ & Hcell). congruence.
    + exists 0%nat. split_and!.
      * f_equal. lia.
      * simpl. lia.
      * intros j i' Hj. lia.
      * simpl. intros i' [= <-]. rewrite Hprobe. simpl. intros (Hr & Hc & _).
        assert ((0 <=? r) && (r <? rows s) && (0 <=? c) && (c <? cols s) = true)
          as Htrue; [|congruence].
        repeat (apply andb_true_intro; split); lia.
Qed.

Lemma count_loop_range (probe : Z → Z * Z) (c0 : Z) :
  ∃ k : Z,
    count_loop s probe p c0 (py_range 1 (win_length s)) = Some (c0 + k) ∧
    0 ≤ k ≤ Z.max 0 (win_length s - 1) ∧
    (∀ i, 1 ≤ i ≤ k → holds s p (probe i).1 (probe i).2) ∧
    (k < Z.max 0 (win_length s - 1) → ¬ holds s p (probe (k + 1)).1 (probe (k + 1)).2).
Proof.
  destruct (count_loop_run probe (py_range 1 (win_length s)) c0)
    as (k & Hloop & Hk & Hrun & Hstop).
  rewrite py_range_length in Hk.
  exists (Z.of_nat k). split_and!; try done; try lia.
  - intros i Hi. apply (Hrun (Z.to_nat (i - 1))); [lia|].
    apply py_range_lookup. split; lia.
  - intros Hlt. apply Hstop. apply py_range_lookup. split; lia.
Qed.

(** From here on [(row, col)] is a cell of the player: the one the piece
    was placed on. *)
Context (row col : Z) (Hhere : holds s p row col).

(** One axis: both loops return, and the final counter reaches
    [win_length] exactly when the axis carries a line. *)
Lemma axis_count (dr dc : Z) :
  ∃ c1 c2,
    count_loop s (λ i, (row + i * dr, col + i * dc)) p 1
      (py_range 1 (win_length s)) = Some c1 ∧
    count_loop s (λ i, (row - i * dr, col - i * dc)) p c1
      (py_range 1 (win_length s)) = Some c2 ∧
    (win_length s ≤ c2 ↔ line_within s p row col (dr, dc)).
Proof.
  destruct (count_loop_range (λ i, (row + i * dr, col + i * dc)) 1)
    as (a & Ha & Hale & Harun & Hastop).
  destruct (count_loop_range (λ i, (row - i * dr, col - i * dc)) (1 + a))
    as (b & Hb & Hble & Hbrun & Hbstop).
  exists (1 + a), (1 + a + b). split_and!; try done. split.
  - intros Hw. exists a, b. split_and!; try lia.
    intros i Hi. simpl.
    destruct (decide (i = 0)) as [->|Hi0].
    { replace (row + 0 * dr) with row by lia.
      replace (col + 0 * dc) with col by lia. apply Hhere. }
    destruct (decide (0 < i)) as [Hpos|Hneg].
    + apply (Harun i). lia.
    + specialize (Hbrun (- i)). simpl in Hbrun.
      replace (row + i * dr) with (row - - i * dr) by lia.
      replace (col + i * dc) with (col - - i * dc) by lia.
      apply Hbrun. lia.
  - intros (a' & b' & Ha' & Hb' & Hw & Hline). simpl in Hline.
    assert (a' ≤ a) as Haa.
    { destruct (decide (a' ≤ a)) as [|Hgt]; [done|]. exfalso.
      apply Hastop; [lia|]. simpl. apply Hline. lia. }
    assert (b' ≤ b) as Hbb.
    { destruct (decide (b' ≤ b)) as [|Hgt]; [done|]. exfalso.
      apply Hbstop; [lia|]. simpl.
      replace (row - (b + 1) * dr) with (row + - (b + 1) * dr) by lia.
      replace (col - (b + 1) * dc) with (col + - (b + 1) * dc) by lia.
      apply Hline. lia. }
    lia.
Qed.

Lemma check_dirs_spec (ds : list (Z * Z)) :
  ∃ win : bool,
    check_dirs s row col p ds = Some win ∧
    (win = true ↔ ∃ d, d ∈ ds ∧ line_within s p row col d).
Proof.
  induction ds as [|[dr dc] ds (win & Hrest & Hwin)].
  - exists false. split; [done|]. split; [done|].
    intros (d & Hd & _). by apply elem_of_nil in Hd.
  - destruct (axis_count dr dc) as (c1 & c2 & H1 & H2 & Hline).
    simpl. rewrite H1. simpl. rewrite H2. simpl.
    destruct (win_length s <=? c2) eqn:Hc2.
    + exists true. split; [done|]. split; [|done]. intros _.
      exists (dr, dc). split; [left|]. apply Hline. lia.
    + exists win. split; [done|]. rewrite Hwin. split.
      * intros (d & Hd & Hl). exists d. split; [by right|done].
      * intros (d & Hd & Hl). apply elem_of_cons in Hd as [->|Hd].
        -- apply Hline in Hl. lia.
        -- by exists d.
Qed.

End WinCheck.

(** ** The draw check *)

Lemma is_draw_spec (s : Connect4Env) :
  well_shaped s → 0 < rows s →
  ∃ draw : bool, _is_draw s = Some draw ∧ (draw = true ↔ top_row_full s).
Proof.
  intros Hws Hrows. pose proof Hws as (Hr0 & Hc0 & Hlen & Hall).
  destruct (lookup_lt_is_Some_2 (board s) 0%nat) as [top Htop]; [lia|].
  pose proof (Forall_lookup_1 _ _ _ _ Hall Htop) as Hlt. simpl in Hlt.
  unfold _is_draw. rewrite getrow_lookup by lia. change (Z.to_nat 0) with 0%nat.
  rewrite Htop. simpl. eexists. split; [done|].
  rewrite forallb_forall. split.
  - intros Hfull c Hc.
    destruct (lookup_lt_is_Some_2 top (Z.to_nat c)) as [v Hv]; [lia|].
    exists v. split.
    + apply cell_lookup. split_and!; try lia. by exists top.
    + specialize (Hfull v). rewrite <- list_elem_of_In in Hfull.
      specialize (Hfull (list_elem_of_lookup_2 _ _ _ Hv)).
      apply negb_true_iff, Z.eqb_neq in Hfull. done.
  - intros Hfull v [j Hj]%list_elem_of_In%list_elem_of_lookup_1.
    pose proof (lookup_lt_Some _ _ _ Hj) as Hjlt.
    destruct (Hfull (Z.of_nat j)) as (v' & Hv' & Hne); [lia|].
    apply cell_lookup in Hv' as (_ & _ & l & Hl & Hv').
    change (Z.to_nat 0) with 0%nat in Hl. rewrite Nat2Z.id in Hv'.
    assert (v' = v) as -> by congruence.
    apply negb_true_iff, Z.eqb_neq. done.
Qed.

(** ** One legal step *)

Lemma int8_player (s : Connect4Env) :
  valid_player s → int8 (current_player s) = current_player s.
Proof. intros [->| ->]; reflexivity. Qed.

Lemma place_piece_placed (s : Connect4Env) (col : Z) :
  well_shaped s → valid_player s → legal s col →
  ∃ row s1,
    _place_piece s col (current_player s) = Some (Some row, s1) ∧
    placed_at s s1 row col.
Proof.
  intros Hws Hp Hlegal.
  destruct (place_piece_legal s col (current_player s) Hws Hlegal)
    as (row & l & Hrow & Hempty & Habove & Hl & Hplace).
  rewrite (int8_player s Hp) in Hplace.
  destruct Hlegal as [Hcol Htop].
  eexists row, _. split; [exact Hplace|].
  split; simpl; try done.
  - by apply well_shaped_insert.
  - intros r' Hr'.
    destruct (well_shaped_cell s r' col Hws) as [v Hv]; [lia|done|].
    exists v. split; [done|]. intros ->. by apply (Habove r').
  - by eapply cell_insert_eq.
  - intros r' c' Hne. apply cell_insert_ne; [lia|lia|done|done].
Qed.

Lemma step_legal (s : Connect4Env) (col : Z) :
  well_shaped s → valid_player s → legal s col →
  ∃ row s1 win draw,
    _place_piece s col (current_player s) = Some (Some row, s1) ∧
    placed_at s s1 row col ∧
    _check_win_from_move s1 (Some row) col (current_player s) = Some win ∧
    (win = true ↔ ∃ d, d ∈ directions ∧ line_within s1 (current_player s) row col d) ∧
    _is_draw s1 = Some draw ∧
    (draw = true ↔ top_row_full s1) ∧
    step s col = Some (outcome s1 win draw).
Proof.
  intros Hws Hp Hlegal.
  destruct (place_piece_placed s col Hws Hp Hlegal) as (row & s1 & Hplace & Hpl).
  assert (holds s1 (current_player s) row col) as Hhere.
  { split_and!; rewrite ?(pl_rows _ _ _ _ Hpl), ?(pl_cols _ _ _ _ Hpl);
      try apply Hpl. }
  destruct (check_dirs_spec s1 (pl_shape _ _ _ _ Hpl) (current_player s)
              row col Hhere directions) as (win & Hcheck & Hwin).
  destruct (is_draw_spec s1 (pl_shape _ _ _ _ Hpl)) as (draw & Hdraw & Hfull).
  { rewrite (pl_rows _ _ _ _ Hpl). pose proof (pl_row _ _ _ _ Hpl). lia. }
  exists row, s1, win, draw. split_and!; try done.
  unfold step. rewrite (proj2 (is_valid_action_legal s col) Hlegal). simpl.
  rewrite Hplace. cbn -[_check_win_from_move _is_draw _get_observation].
  change (check_dirs s1 row col (current_player s) directions)
    with (_check_win_from_move s1 (Some row) col (current_player s)) in Hcheck.
  rewrite Hcheck. cbn -[_is_draw _get_observation].
  unfold outcome. destruct win; [done|]. rewrite Hdraw.
  destruct draw; done.
Qed.

Lemma step_illegal (s : Connect4Env) (col : Z) :
  illegal s col →
  step s col =
    Some (mkResult (_get_observation s) (-10) true (invalid_move_info s), s).
Proof.
  intros Hill. unfold step.
  rewrite (proj2 (is_valid_action_illegal s col) Hill). done.
Qed.

(** ** Invariants of the reachable states *)

Lemma cell_zeros (n m : nat) (r c v : Z) :
  cell (replicate n (replicate m 0)) r c = Some v → v = 0.
Proof.
  intros (_ & _ & l & Hl & Hv)%cell_lookup.
  apply lookup_replicate in Hl as [-> _].
  apply lookup_replicate in Hv as [-> _]. done.
Qed.

Lemma zeros_inv (r c w p : Z) (b : list (list Z)) :
  np_zeros r c = Some b → p = 1 ∨ p = -1 → env_inv (mkEnv r c w b p).
Proof.
  unfold np_zeros. case_bool_decide as Hdims; [|done]. intros [= <-] Hp.
  split_and!; try done.
  - split_and!; simpl; try lia.
    + by rewrite length_replicate.
    + apply Forall_replicate. by rewrite length_replicate.
  - intros r' c' v Hv. simpl in Hv. apply cell_zeros in Hv. lia.
  - intros r1 r2 c' v v' Hv Hne. simpl in Hv. apply cell_zeros in Hv. done.
Qed.

Lemma init_inv (r c w : Z) (s : Connect4Env) :
  __init__ r c w = Some s → env_inv s.
Proof.
  unfold __init__. destruct (np_zeros r c) as [b|] eqn:Hb; [|done].
  intros [= <-]. apply (zeros_inv r c w 1 b Hb). by left.
Qed.

Lemma reset_inv (s : Connect4Env) (o : list (list Z)) (s' : Connect4Env) :
  reset s = Some (o, s') → env_inv s'.
Proof.
  unfold reset. destruct (np_zeros (rows s) (cols s)) as [b|] eqn:Hb; [|done].
  intros [= _ <-]. apply (zeros_inv _ _ _ 1 b Hb). by left.
Qed.

Lemma placed_inv (s s1 : Connect4Env) (row col : Z) :
  env_inv s → placed_at s s1 row col → env_inv s1.
Proof.
  intros (Hws & Hp & Hcells & Hgrav) Hpl. split_and!.
  - apply Hpl.
  - unfold valid_player. by rewrite (pl_player _ _ _ _ Hpl).
  - intros r c v Hv. destruct (decide ((r, c) = (row, col))) as [[= -> ->]|Hne].
    + rewrite (pl_here _ _ _ _ Hpl) in Hv. injection Hv as <-.
      destruct Hp as [-> | ->]; lia.
    + rewrite (pl_frame _ _ _ _ Hpl) in Hv by done. by apply (Hcells r c).
  - intros r r' c v v' Hv Hne Hle Hv'.
    destruct (decide ((r', c) = (row, col))) as [[= -> ->]|Hne'].
    { rewrite (pl_here _ _ _ _ Hpl) in Hv'. injection Hv' as <-.
      destruct Hp as [-> | ->]; lia. }
    rewrite (pl_frame _ _ _ _ Hpl) in Hv' by done.
    destruct (decide ((r, c) = (row, col))) as [[= -> ->]|Hne''].
    + destruct (cell_well_shaped _ _ _ _ Hws Hv') as [Hr' _].
      destruct (pl_below _ _ _ _ Hpl r') as (w & Hw & Hw0).
      { split; [|lia]. destruct (decide (r' = row)) as [->|]; [done|lia]. }
      congruence.
    + rewrite (pl_frame _ _ _ _ Hpl) in Hv by done.
      by apply (Hgrav r r' c v v').
Qed.

Lemma flip_inv (s : Connect4Env) :
  env_inv s → env_inv (set_current_player s (current_player s * -1)).
Proof.
  intros (Hws & Hp & Hcells & Hgrav). split_and!; try done.
  unfold valid_player. simpl. destruct Hp as [-> | ->]; [by right|by left].
Qed.

(** [step] either rejects the column, accepts it, or (on an array
    without rows) raises. *)
Lemma legal_or_illegal (s : Connect4Env) (col : Z) (res : StepResult)
    (s' : Connect4Env) :
  step s col = Some (res, s') → legal s col ∨ illegal s col.
Proof.
  unfold step. destruct (_is_valid_action s col) as [[|]|] eqn:Hvalid; [| |done].
  - intros _. left. by apply is_valid_action_legal.
  - intros _. right. by apply is_valid_action_illegal.
Qed.

Lemma step_inv (s : Connect4Env) (a : Z) (res : StepResult) (s' : Connect4Env) :
  env_inv s → step s a = Some (res, s') → env_inv s'.
Proof.
  intros Hinv Hstep.
  destruct (legal_or_illegal s a res s' Hstep) as [Hlegal|Hill].
  - pose proof Hinv as (Hws & Hp & _).
    destruct (step_legal s a Hws Hp Hlegal)
      as (row & s1 & win & draw & _ & Hpl & _ & _ & _ & _ & Hout).
    rewrite Hout in Hstep. pose proof (placed_inv s s1 row a Hinv Hpl) as Hinv1.
    unfold outcome in Hstep.
    destruct win; [|destruct draw]; injection Hstep as _ <-; try done.
    by apply flip_inv.
  - rewrite (step_illegal s a Hill) in Hstep. by injection Hstep as _ <-.
Qed.

Lemma reachable_inv (s : Connect4Env) : reachable s → env_inv s.
Proof.
  induction 1 as [r c w s Hinit|s o s' _ _ Hreset|s a res s' _ IH Hstep].
  - by eapply init_inv.
  - by eapply reset_inv.
  - by eapply step_inv.
Qed.

(** ** The list of open columns *)

Lemma py_range_elem (lo hi c : Z) : c ∈ py_range lo hi ↔ lo ≤ c < hi.
Proof.
  rewrite list_elem_of_lookup. split.
  - intros [j [Hj ->]%py_range_lookup]. lia.
  - intros Hc. exists (Z.to_nat (c - lo)). apply py_range_lookup. lia.
Qed.

Lemma py_range_sorted (lo hi : Z) : StronglySorted Z.lt (py_range lo hi).
Proof.
  unfold py_range. generalize (Z.to_nat (hi - lo)) as n. generalize 0%nat as k.
  intros k n. revert k. induction n as [|n IH]; intros k; simpl.
  - constructor.
  - constructor; [apply IH|].
    apply Forall_forall. intros x [j [-> Hj]]%list_elem_of_fmap.
    apply elem_of_seq in Hj. lia.
Qed.

Lemma filter_sorted (P : Z → Prop) `{∀ x, Decision (P x)} (l : list Z) :
  StronglySorted Z.lt l → StronglySorted Z.lt (filter P l).
Proof.
  induction 1 as [|x l Hl IH Hx].
  - constructor.
  - rewrite filter_cons. destruct (decide (P x)); [|done].
    constructor; [done|].
    apply Forall_forall. intros y [_ Hy]%list_elem_of_filter.
    by apply (proj1 (Forall_forall _ _) Hx).
Qed.

Lemma valid_cols_filter (b : list (list Z)) (cs : list Z) :
  Forall (λ c, 0 ≤ c ∧ is_Some (cell b 0 c)) cs →
  valid_cols b cs = Some (filter (λ c, cell b 0 c = Some 0) cs).
Proof.
  induction 1 as [|c cs [Hc [v Hv]] _ IH]; [done|].
  simpl. rewrite getitem_cell by lia. rewrite Hv, IH. simpl.
  rewrite filter_cons. destruct (v =? 0) eqn:Hv0.
  - apply Z.eqb_eq in Hv0 as ->. by rewrite decide_True.
  - apply Z.eqb_neq in Hv0. rewrite decide_False; [done|]. congruence.
Qed.

(** ** Observations *)

Lemma step_obs (s : Connect4Env) (a : Z) (res : StepResult) (s' : Connect4Env) :
  step s a = Some (res, s') → obs res = _get_observation s'.
Proof.
  unfold step.
  destruct (_is_valid_action s a) as [[|]|]; simpl; [| |done].
  - destruct (_place_piece s a (current_player s)) as [[[row|] s1]|];
      cbn -[_check_win_from_move _is_draw _get_observation]; [| |done].
    + destruct (_check_win_from_move s1 (Some row) a (current_player s))
        as [[|]|]; cbn -[_is_draw _get_observation]; [| |done].
      * by intros [= <- <-].
      * destruct (_is_draw s1) as [[|]|]; cbn -[_get_observation]; [| |done];
          by intros [= <- <-].
    + by intros [= <- <-].
  - by intros [= <- <-].
Qed.

Lemma cells_ok_Forall (s : Connect4Env) :
  cells_ok s → Forall (Forall trit) (board s).
Proof.
  intros Hcells. apply Forall_lookup. intros i l Hl.
  apply Forall_lookup. intros j v Hv.
  apply (Hcells (Z.of_nat i) (Z.of_nat j)). apply cell_lookup.
  split_and!; try lia. exists l. by rewrite !Nat2Z.id.
Qed.

Lemma observation_scaled (s : Connect4Env) :
  env_inv s →
  _get_observation s = map (map (λ x, x * current_player s)) (board s) ∧
  Forall (Forall trit) (_get_observation s).
Proof.
  intros (_ & Hp & Hcells%cells_ok_Forall & _). unfold _get_observation.
  induction Hcells as [|l b Hl _ [IHeq IHall]]; [by split|].
  simpl. rewrite IHeq.
  assert (map (λ x, int8 (x * current_player s)) l =
            map (λ x, x * current_player s) l ∧
          Forall trit (map (λ x, x * current_player s) l)) as [-> Hrow].
  { induction Hl as [|v l Hv _ [IHl IHt]]; [by split|].
    simpl. rewrite IHl. split.
    - f_equal. unfold trit in Hv.
      destruct Hp as [-> | ->]; destruct Hv as [-> | [-> | ->]]; reflexivity.
    - constructor; [|done]. unfold trit in *.
      destruct Hp as [-> | ->]; lia. }
  split; [done|]. constructor; [done|]. by rewrite <- IHeq.
Qed.

(** ** Steps that leave the state alone *)

Lemma run_illegal (cs : list Z) (s : Connect4Env) :
  Forall (illegal s) cs →
  ∃ rs, run_steps s cs = Some (rs, s) ∧
        Forall (λ r, done r = true ∧ reward r = -10) rs.
Proof.
  induction 1 as [|c cs Hc _ (rs & Hrun & Hrs)].
  - by exists [].
  - eexists (_ :: rs). simpl. rewrite (step_illegal s c Hc). simpl.
    rewrite Hrun. simpl. split; [done|]. by constructor.
Qed.

Lemma full_all_illegal (s : Connect4Env) (c : Z) : top_row_full s → illegal s c.
Proof.
  intros Hfull. destruct (decide (0 ≤ c < cols s)) as [Hc|Hc]; [right|by left].
  split; [done|]. by apply Hfull.
Qed.

Lemma run_steps_reachable (s : Connect4Env) (cs : list Z) (rs : list StepResult)
    (s' : Connect4Env) :
  reachable s → run_steps s cs = Some (rs, s') → reachable s'.
Proof.
  revert s rs. induction cs as [|c cs IH]; intros s rs Hs; simpl.
  - by intros [= _ <-].
  - destruct (step s c) as [[res s1]|] eqn:Hstep; [|done]. simpl.
    destruct (run_steps s1 cs) as [[rest s2]|] eqn:Hrun; [|done]. simpl.
    intros [= _ <-]. apply (IH s1 rest); [|done]. by eapply reach_step.
Qed.

(** On a board with a top row [step] returns for every column, and [reset]
    returns on every well-shaped state. *)
Lemma step_returns (s : Connect4Env) (a : Z) :
  well_shaped s → valid_player s → 0 < rows s →
  ∃ res s', step s a = Some (res, s').
Proof.
  intros Hws Hp Hrows.
  destruct (decide (0 ≤ a < cols s)) as [Ha|Ha].
  - destruct (well_shaped_cell s 0 a Hws) as [v Hv]; [lia|done|].
    destruct (decide (v = 0)) as [->|Hv0].
    + destruct (step_legal s a Hws Hp (conj Ha Hv))
        as (row & s1 & win & draw & _ & _ & _ & _ & _ & _ & Hout).
      rewrite Hout. exists (outcome s1 win draw).1, (outcome s1 win draw).2.
      by rewrite <- surjective_pairing.
    + eexists _, _. apply step_illegal. right. split; [done|]. by exists v.
  - eexists _, _. apply step_illegal. by left.
Qed.

Lemma reset_returns (s : Connect4Env) :
  well_shaped s → ∃ o s', reset s = Some (o, s').
Proof.
  intros (Hr & Hc & _). unfold reset, np_zeros.
  rewrite bool_decide_eq_true_2 by done. by eexists _, _.
Qed.

(** ** The landing cell and the four axes *)

Lemma directions_axes (d : Z * Z) : d ∈ directions ↔ is_axis d.
Proof.
  unfold directions, is_axis, horizontal, vertical, diagonal, anti_diagonal.
  rewrite !elem_of_cons, elem_of_nil. tauto.
Qed.

Lemma exists_direction (P : Z * Z → Prop) :
  (∃ d, d ∈ directions ∧ P d) ↔
  P horizontal ∨ P vertical ∨ P diagonal ∨ P anti_diagonal.
Proof.
  split.
  - intros (d & [-> | [-> | [-> | ->]]]%directions_axes & HP); tauto.
  - intros [H|[H|[H|H]]]; eexists; (split; [apply directions_axes|exact H]);
      unfold is_axis; tauto.
Qed.

Lemma int8_small (p : Z) : -128 ≤ p ≤ 127 → int8 p = p.
Proof. intros Hp. unfold int8. rewrite Z.mod_small by lia. lia. Qed.

Lemma legal_lands (s : Connect4Env) (col : Z) :
  well_shaped s → legal s col → ∃ row, lands_on s col row.
Proof.
  intros Hws Hlegal.
  destruct (place_piece_legal s col 0 Hws Hlegal)
    as (row & l & Hrow & Hempty & Habove & _ & _).
  exists row. split_and!; try done; try lia. intros r Hr.
  destruct (well_shaped_cell s r col Hws) as [v Hv]; [lia|apply Hlegal|].
  exists v. split; [done|]. intros ->. by apply (Habove r).
Qed.

(** The landing cell is where [_place_piece] puts the piece. *)
Lemma lands_on_place (s : Connect4Env) (col row : Z) :
  well_shaped s → valid_player s → legal s col → lands_on s col row →
  _place_piece s col (current_player s) = Some (Some row, with_piece s row col) ∧
  placed_at s (with_piece s row col) row col.
Proof.
  intros Hws Hp Hlegal (Hrow & Hempty & Hbelow).
  destruct (place_piece_placed s col Hws Hp Hlegal) as (row0 & s1 & Hplace & Hpl).
  destruct (place_piece_legal s col (current_player s) Hws Hlegal)
    as (row1 & l & Hrow1 & Hempty1 & Habove1 & Hl & Hplace1).
  rewrite Hplace1 in Hplace. injection Hplace as <- <-.
  assert (row = row1) as <-.
  { destruct (Z.lt_trichotomy row row1) as [Hlt|[Heq|Hgt]]; [|done|].
    - destruct (Hbelow row1) as (v & Hv & Hv0); [lia|]. congruence.
    - exfalso. apply (Habove1 row); [lia|done]. }
  rewrite (int8_player s Hp) in *.
  assert (with_piece s row col =
          set_board s (<[Z.to_nat row := <[Z.to_nat col := current_player s]> l]>
                         (board s))) as ->.
  { unfold with_piece. by rewrite Hl. }
  done.
Qed.

(** A continuing move: [step] returns the position with the piece on its
    landing cell and the turn handed over. *)
Lemma continuing_step (s : Connect4Env) (a row : Z) :
  well_shaped s → valid_player s → continuing s a row →
  let s2 := set_current_player (with_piece s row a) (current_player s * -1) in
  step s a = Some (mkResult (_get_observation s2) 0 false ∅, s2) ∧
  well_shaped s2 ∧ valid_player s2 ∧
  current_player s2 = - current_player s.
Proof.
  intros Hws Hp (Hlegal & Hland & Hnowin & Hnotfull) s2.
  destruct (lands_on_place s a row Hws Hp Hlegal Hland) as [Hplace Hpl].
  destruct (step_legal s a Hws Hp Hlegal)
    as (row' & s1 & win & draw & Hplace' & _ & _ & Hwin & _ & Hdraw & Hstep).
  rewrite Hplace in Hplace'. injection Hplace' as <- <-.
  destruct win.
  { destruct Hnowin. destruct (proj1 Hwin eq_refl) as (d & Hd & Hline).
    apply line_within_through in Hline.
    apply (exists_direction (line_through (with_piece s row a) (current_player s) row a)).
    by exists d. }
  destruct draw; [by destruct Hnotfull; apply Hdraw|].
  split_and!.
  - exact Hstep.
  - apply (pl_shape _ _ _ _ Hpl).
  - unfold valid_player, s2. simpl. destruct Hp as [-> | ->]; lia.
  - unfold s2. simpl. lia.
Qed.

(** ** Sample games *)

(** The vertical four of player one on the default board: the game that
    leads to [three_stacked] and the winning move. *)
Example vertical_four_game :
  run_steps fresh [0; 1; 0; 1; 0; 1; 0] ≫=
    (λ '(rs, s), Some (map (λ r, (reward r, done r)) rs, current_player s)) =
  Some ([(0, false); (0, false); (0, false); (0, false); (0, false); (0, false);
         (1, true)], 1).
Proof. vm_compute. reflexivity. Qed.

Example three_stacked_reached :
  default_env = Some fresh ∧
  (run_steps fresh [0; 1; 0; 1; 0; 1] ≫= λ '(_, s), Some s) = Some three_stacked.
Proof. split; vm_compute; reflexivity. Qed.

(** ** The claims *)

(** C1: on a legal column the piece lands on the lowest empty cell of the
    column.  With the piece there the win check returns, and it returns
    [True] exactly when one of the four axes (horizontal, vertical,
    diagonal, anti-diagonal) carries an unbroken line of at least
    [win_length] cells of the mover through that cell; such a line is
    found within [win_length - 1] steps on either side.  On a win [step]
    returns reward 1 with [done] set and [current_player] is the mover
    still; without a line the reward is 0. *)
Theorem win_iff_line_through_placed (s : Connect4Env) (col : Z) :
  well_shaped s → valid_player s → legal s col →
  (∃ row, lands_on s col row) ∧
  ∀ row, lands_on s col row →
    let s1 := with_piece s row col in
    let p := current_player s in
    _place_piece s col p = Some (Some row, s1) ∧
    cell (board s1) row col = Some p ∧
    current_player s1 = p ∧
    (∃ win,
       _check_win_from_move s1 (Some row) col p = Some win ∧
       (win = true ↔ wins_at s1 p row col) ∧
       (win = true ↔ wins_within s1 p row col)) ∧
    (wins_at s1 p row col →
       _check_win_from_move s1 (Some row) col p = Some true ∧
       step s col = Some (mkResult (_get_observation s1) 1 true ∅, s1)) ∧
    (¬ wins_at s1 p row col →
       _check_win_from_move s1 (Some row) col p = Some false ∧
       ∃ res s', step s col = Some (res, s') ∧ reward res = 0).
Proof.
  intros Hws Hp Hlegal. split; [by apply legal_lands|].
  intros row Hland s1 p.
  destruct (lands_on_place s col row Hws Hp Hlegal Hland) as [Hplace Hpl].
  destruct (step_legal s col Hws Hp Hlegal)
    as (row' & s1' & win & draw & Hplace' & _ & Hcheck & Hwin & _ & _ & Hstep).
  rewrite Hplace in Hplace'. injection Hplace' as <- <-.
  fold s1 p in Hpl, Hcheck, Hwin, Hstep.
  assert (win = true ↔ wins_within s1 p row col) as Hwithin.
  { rewrite Hwin. apply (exists_direction (line_within s1 p row col)). }
  assert (win = true ↔ wins_at s1 p row col) as Hat.
  { rewrite Hwithin. unfold wins_within, wins_at.
    by rewrite !line_within_through. }
  split_and!.
  - done.
  - apply Hpl.
  - done.
  - by exists win.
  - intros Hline. apply Hat in Hline. subst win. done.
  - intros Hnone. destruct win; [by destruct Hnone; apply Hat|].
    split; [done|]. rewrite Hstep. unfold outcome.
    destruct draw; by eexists _, _.
Qed.

(** The fourth piece of the stack wins, the third does not. *)
Lemma win_iff_line_through_placed_witness :
  (_check_win_from_move four_stacked (Some 2) 0 1 = Some true ∧
   step three_stacked 0 =
     Some (mkResult (_get_observation four_stacked) 1 true ∅, four_stacked)) ∧
  (_check_win_from_move (with_piece two_stacked 3 0) (Some 3) 0 1 = Some false ∧
   ∃ res s', step two_stacked 0 = Some (res, s') ∧ reward res = 0).
Proof.
  split.
  - refine (proj1 (proj2 (proj2 (proj2 (proj2
             (proj2 (win_iff_line_through_placed three_stacked 0 _ _ _) 2 _)))))
             _).
    + shape_tac.
    + player_tac.
    + legal_tac.
    + split_and!; [simpl; lia..|reflexivity|].
      intros r Hr. simpl in Hr.
      assert (r = 3 ∨ r = 4 ∨ r = 5) as [-> | [-> | ->]] by lia;
        exists 1; (split; [reflexivity|lia]).
    + right. left. exists 3, 0. split_and!; [lia..|simpl; lia|].
      intros i Hi.
      assert (i = 0 ∨ i = 1 ∨ i = 2 ∨ i = 3) as [-> | [-> | [-> | ->]]] by lia;
        (split_and!; [simpl; lia..|reflexivity]).
  - refine (proj2 (proj2 (proj2 (proj2 (proj2
             (proj2 (win_iff_line_through_placed two_stacked 0 _ _ _) 3 _)))))
             _).
    + shape_tac.
    + player_tac.
    + legal_tac.
    + split_and!; [simpl; lia..|reflexivity|].
      intros r Hr. simpl in Hr.
      assert (r = 4 ∨ r = 5) as [-> | ->] by lia;
        exists 1; (split; [reflexivity|lia]).
    + intros [H|[H|[H|H]]]; destruct H as (a & b & Ha & Hb & Hw & Hl);
        simpl in Hw.
      * destruct (decide (1 ≤ a)); [off_line Hl 1|off_line Hl (-1)].
      * destruct (decide (1 ≤ b)); [off_line Hl (-1)|off_line Hl 3].
      * destruct (decide (1 ≤ a)); [off_line Hl 1|off_line Hl (-1)].
      * destruct (decide (1 ≤ a)); [off_line Hl 1|off_line Hl (-1)].
Defined.



(** C4: a legal [step] puts the mover's piece into the lowest empty cell
    of the column: the cell found is empty, every cell below it is
    occupied, it holds the mover afterwards, and the other cells of the
    column are as before. *)
Theorem piece_lands_on_lowest_empty (s : Connect4Env) (col : Z) :
  well_shaped s → valid_player s → legal s col →
  ∃ row s1 res s',
    _place_piece s col (current_player s) = Some (Some row, s1) ∧
    step s col = Some (res, s') ∧ board s' = board s1 ∧
    0 ≤ row < rows s ∧
    cell (board s) row col = Some 0 ∧
    (∀ r, row < r < rows s → ∃ v, cell (board s) r col = Some v ∧ v ≠ 0) ∧
    cell (board s') row col = Some (current_player s) ∧
    (∀ r, r ≠ row → cell (board s') r col = cell (board s) r col).
Proof.
  intros Hws Hp Hlegal.
  destruct (step_legal s col Hws Hp Hlegal)
    as (row & s1 & win & draw & Hplace & Hpl & _ & _ & _ & _ & Hstep).
  exists row, s1, (outcome s1 win draw).1, (outcome s1 win draw).2.
  assert (board (outcome s1 win draw).2 = board s1) as Hboard.
  { unfold outcome. destruct win; [done|]. destruct draw; done. }
  rewrite Hboard. split_and!; try done; try apply Hpl.
  - by rewrite <- surjective_pairing.
  - intros r Hr. apply (pl_frame _ _ _ _ Hpl). congruence.
Qed.

Lemma piece_lands_on_lowest_empty_witness :
  ∃ row s1 res s',
    _place_piece three_stacked 1 1 = Some (Some row, s1) ∧
    step three_stacked 1 = Some (res, s') ∧ board s' = board s1 ∧
    0 ≤ row < 6 ∧
    cell (board three_stacked) row 1 = Some 0 ∧
    (∀ r, row < r < 6 → ∃ v, cell (board three_stacked) r 1 = Some v ∧ v ≠ 0) ∧
    cell (board s') row 1 = Some 1 ∧
    (∀ r, r ≠ row → cell (board s') r 1 = cell (board three_stacked) r 1).
Proof.
  apply (piece_lands_on_lowest_empty three_stacked 1).
  - shape_tac.
  - player_tac.
  - legal_tac.
Defined.

(** C5: when a legal [step] places a piece without winning and the top
    row is full afterwards, [step] returns reward 0 with [done] set, and
    [current_player] is not flipped. *)
Theorem draw_when_top_row_full (s : Connect4Env) (col row : Z) (s1 : Connect4Env) :
  well_shaped s → valid_player s → legal s col →
  _place_piece s col (current_player s) = Some (Some row, s1) →
  _check_win_from_move s1 (Some row) col (current_player s) = Some false →
  top_row_full s1 →
  step s col = Some (mkResult (_get_observation s1) 0 true ∅, s1) ∧
  current_player s1 = current_player s.
Proof.
  intros Hws Hp Hlegal Hplace Hcheck Hfull.
  destruct (step_legal s col Hws Hp Hlegal)
    as (row' & s1' & win & draw & Hplace' & Hpl & Hcheck' & _ & _ & Hdraw & Hstep).
  rewrite Hplace in Hplace'. injection Hplace' as <- <-.
  rewrite Hcheck in Hcheck'. injection Hcheck' as <-.
  apply Hdraw in Hfull as ->. split; [done|apply Hpl].
Qed.

Lemma draw_when_top_row_full_witness :
  step nearly_full 1 = Some (mkResult [[-1; 1]; [1; -1]] 0 true ∅, drawn) ∧
  current_player drawn = current_player nearly_full.
Proof.
  apply (draw_when_top_row_full nearly_full 1 0 drawn).
  - shape_tac.
  - player_tac.
  - legal_tac.
  - reflexivity.
  - reflexivity.
  - intros c Hc. assert (c = 0 ∨ c = 1) as [-> | ->] by (simpl in Hc; lia).
    + exists 1. split; [reflexivity|lia].
    + exists (-1). split; [reflexivity|lia].
Defined.

(** C6: a legal [step] whose piece, on its landing cell, makes no line on
    any of the four axes and leaves the top row with an empty cell returns
    reward 0 with [done] clear and the position with that piece and
    [current_player] negated, once; a second such step negates it back, so
    over two consecutive steps that both return [done] clear the player
    goes from one of +1, -1 to the other and back. *)
Theorem continuing_step_flips_player (s : Connect4Env) (a b : Z) :
  well_shaped s → valid_player s →
  (∀ row, continuing s a row →
     let s2 := set_current_player (with_piece s row a) (current_player s * -1) in
     step s a = Some (mkResult (_get_observation s2) 0 false ∅, s2) ∧
     current_player s2 = - current_player s ∧
     ∀ row', continuing s2 b row' →
       let s4 :=
         set_current_player (with_piece s2 row' b) (current_player s2 * -1) in
       step s2 b = Some (mkResult (_get_observation s4) 0 false ∅, s4) ∧
       current_player s4 = current_player s ∧
       (current_player s = 1 ∧ current_player s2 = -1 ∨
        current_player s = -1 ∧ current_player s2 = 1)) ∧
  (∀ r1 s1 r2 s2,
     step s a = Some (r1, s1) → done r1 = false →
     step s1 b = Some (r2, s2) → done r2 = false →
     legal s a ∧ legal s1 b ∧
     current_player s1 = - current_player s ∧
     current_player s2 = current_player s ∧
     (current_player s = 1 ∧ current_player s1 = -1 ∨
      current_player s = -1 ∧ current_player s1 = 1)).
Proof.
  intros Hws Hp. split.
  - intros row Hcont s2.
    destruct (continuing_step s a row Hws Hp Hcont) as (Hstep & Hws2 & Hp2 & Hcp2).
    fold s2 in Hstep, Hws2, Hp2, Hcp2. split_and!; try done.
    intros row' Hcont' s4.
    destruct (continuing_step s2 b row' Hws2 Hp2 Hcont') as (Hstep' & _ & _ & Hcp4).
    fold s4 in Hstep', Hcp4. split_and!; try done; try lia.
    destruct Hp as [Hp|Hp]; [left|right]; lia.
  - assert (∀ t c r t', well_shaped t → valid_player t →
              step t c = Some (r, t') → done r = false →
              legal t c ∧ well_shaped t' ∧ valid_player t' ∧
              current_player t' = - current_player t) as Hflip.
    { intros t c r t' Hwt Hpt Hstep Hdone.
      destruct (legal_or_illegal t c r t' Hstep) as [Hlegal|Hill].
      - destruct (step_legal t c Hwt Hpt Hlegal)
          as (row & t1 & win & draw & _ & Hpl & _ & _ & _ & _ & Hout).
        rewrite Hout in Hstep. unfold outcome in Hstep.
        destruct win; [|destruct draw]; injection Hstep as <- <-; try done.
        split_and!; try done.
        + apply Hpl.
        + unfold valid_player. simpl. rewrite (pl_player _ _ _ _ Hpl).
          destruct Hpt as [-> | ->]; lia.
        + simpl. rewrite (pl_player _ _ _ _ Hpl). lia.
      - rewrite (step_illegal t c Hill) in Hstep. by injection Hstep as <- <-. }
    intros r1 s1 r2 s2 Hstep1 Hdone1 Hstep2 Hdone2.
    destruct (Hflip s a r1 s1 Hws Hp Hstep1 Hdone1) as (Hl1 & Hws1 & Hp1 & Hcp1).
    destruct (Hflip s1 b r2 s2 Hws1 Hp1 Hstep2 Hdone2) as (Hl2 & _ & _ & Hcp2).
    split_and!; try done; try lia.
    destruct Hp as [Hp|Hp]; [left|right]; lia.
Qed.

(** The first two moves of a game, both on column 3. *)
Lemma continuing_step_flips_player_witness :
  (step fresh 3 = Some (mkResult (_get_observation after_one) 0 false ∅, after_one) ∧
   current_player after_one = - current_player fresh ∧
   step after_one 3 =
     Some (mkResult (_get_observation after_two) 0 false ∅, after_two) ∧
   current_player after_two = current_player fresh) ∧
  (legal fresh 3 ∧ legal after_one 3 ∧
   current_player after_one = - current_player fresh ∧
   current_player after_two = current_player fresh ∧
   (current_player fresh = 1 ∧ current_player after_one = -1 ∨
    current_player fresh = -1 ∧ current_player after_one = 1)).
Proof.
  assert (well_shaped fresh) as Hws by shape_tac.
  assert (valid_player fresh) as Hp by player_tac.
  destruct (continuing_step_flips_player fresh 3 3 Hws Hp) as [Hspec Hrun].
  split.
  - destruct (Hspec 5) as (Hstep1 & Hcp1 & Hnext).
    { split_and!.
      - legal_tac.
      - split_and!; [simpl; lia..|reflexivity|]. intros r Hr. simpl in Hr. lia.
      - intros [H|[H|[H|H]]]; destruct H as (x & y & Hx & Hy & Hw & Hl);
          simpl in Hw;
          (destruct (decide (1 ≤ x)); [off_line Hl 1|off_line Hl (-1)]).
      - intros Hfull. destruct (Hfull 0) as (v & Hv & Hv0); [simpl; lia|].
        vm_compute in Hv. congruence. }
    destruct (Hnext 4) as (Hstep2 & Hcp2 & _).
    { split_and!.
      - legal_tac.
      - split_and!; [simpl; lia..|reflexivity|]. intros r Hr. simpl in Hr.
        assert (r = 5) as -> by lia. exists 1. split; [reflexivity|lia].
      - intros [H|[H|[H|H]]]; destruct H as (x & y & Hx & Hy & Hw & Hl);
          simpl in Hw;
          (destruct (decide (1 ≤ x)); [off_line Hl 1|off_line Hl (-1)]).
      - intros Hfull. destruct (Hfull 0) as (v & Hv & Hv0); [simpl; lia|].
        vm_compute in Hv. congruence. }
    split_and!; [exact Hstep1|exact Hcp1|exact Hstep2|exact Hcp2].
  - apply (Hrun (mkResult (_get_observation after_one) 0 false ∅) after_one
             (mkResult (_get_observation after_two) 0 false ∅) after_two);
      reflexivity.
Defined.

(** C10: a legal [step] changes exactly one cell of the board: the cell
    the piece lands on goes from 0 to the mover's sign, every other cell
    keeps its value, and the shape of the board is as before. *)
Theorem legal_step_changes_one_cell (s : Connect4Env) (col : Z) :
  well_shaped s → valid_player s → legal s col →
  ∃ row res s',
    step s col = Some (res, s') ∧
    0 ≤ row < rows s ∧
    cell (board s) row col = Some 0 ∧
    cell (board s') row col = Some (current_player s) ∧
    current_player s ≠ 0 ∧
    (∀ r c, (r, c) ≠ (row, col) → cell (board s') r c = cell (board s) r c) ∧
    rows s' = rows s ∧ cols s' = cols s ∧ well_shaped s'.
Proof.
  intros Hws Hp Hlegal.
  destruct (step_legal s col Hws Hp Hlegal)
    as (row & s1 & win & draw & Hplace & Hpl & _ & _ & _ & _ & Hstep).
  exists row, (outcome s1 win draw).1, (outcome s1 win draw).2.
  assert (board (outcome s1 win draw).2 = board s1 ∧
          rows (outcome s1 win draw).2 = rows s1 ∧
          cols (outcome s1 win draw).2 = cols s1) as (Hboard & Hrows & Hcols).
  { unfold outcome. destruct win; [done|]. destruct draw; done. }
  assert (well_shaped (outcome s1 win draw).2) as Hws'.
  { pose proof (pl_shape _ _ _ _ Hpl) as Hws1. unfold well_shaped.
    by rewrite Hboard, Hrows, Hcols. }
  rewrite Hboard, Hrows, Hcols.
  split_and!; [ by rewrite <- surjective_pairing | apply Hpl .. | | | | | ].
  - destruct Hp as [-> | ->]; lia.
  - apply Hpl.
  - apply Hpl.
  - apply Hpl.
  - exact Hws'.
Qed.

Lemma legal_step_changes_one_cell_witness :
  ∃ row res s',
    step three_stacked 1 = Some (res, s') ∧
    0 ≤ row < 6 ∧
    cell (board three_stacked) row 1 = Some 0 ∧
    cell (board s') row 1 = Some 1 ∧
    1 ≠ 0 ∧
    (∀ r c, (r, c) ≠ (row, 1) → cell (board s') r c = cell (board three_stacked) r c) ∧
    rows s' = 6 ∧ cols s' = 7 ∧ well_shaped s'.
Proof.
  apply (legal_step_changes_one_cell three_stacked 1).
  - shape_tac.
  - player_tac.
  - legal_tac.
Defined.

(** C7: on a board with a top row, [get_valid_actions] returns the
    columns whose top cell is empty, each once and in ascending order; the
    answer depends on the board and the number of columns only; after
    [reset] on a 6×7 board it is [0, 1, 2, 3, 4, 5, 6]. *)
Theorem valid_actions_are_open_columns (s : Connect4Env) :
  well_shaped s → 0 < rows s →
  (∃ l, get_valid_actions s = Some l ∧
        l = filter (λ c, cell (board s) 0 c = Some 0) (py_range 0 (cols s)) ∧
        (∀ c, c ∈ l ↔ 0 ≤ c < cols s ∧ cell (board s) 0 c = Some 0) ∧
        StronglySorted Z.lt l) ∧
  (∀ s2, cols s2 = cols s → board s2 = board s →
         get_valid_actions s2 = get_valid_actions s) ∧
  (rows s = 6 → cols s = 7 →
   ∃ o s1, reset s = Some (o, s1) ∧
           get_valid_actions s1 = Some [0; 1; 2; 3; 4; 5; 6]).
Proof.
  intros Hws Hrows. split_and!.
  - eexists. split_and!; [|reflexivity| |].
    + unfold get_valid_actions. apply valid_cols_filter.
      apply Forall_forall. intros c Hc%py_range_elem. split; [lia|].
      apply well_shaped_cell; [done|lia|lia].
    + intros c. rewrite list_elem_of_filter, py_range_elem. tauto.
    + apply filter_sorted, py_range_sorted.
  - intros s2 Hcols Hboard. unfold get_valid_actions. by rewrite Hcols, Hboard.
  - intros H6 H7. unfold reset. rewrite H6, H7. eexists _, _.
    split; [reflexivity|]. unfold get_valid_actions. simpl. by rewrite H7.
Qed.

Lemma valid_actions_are_open_columns_witness :
  (∃ l, get_valid_actions nearly_full = Some l ∧
        l = filter (λ c, cell (board nearly_full) 0 c = Some 0) (py_range 0 2) ∧
        (∀ c, c ∈ l ↔ 0 ≤ c < 2 ∧ cell (board nearly_full) 0 c = Some 0) ∧
        StronglySorted Z.lt l) ∧
  (∀ s2, cols s2 = 2 → board s2 = board nearly_full →
         get_valid_actions s2 = get_valid_actions nearly_full) ∧
  (2 = 6 → 2 = 7 →
   ∃ o s1, reset nearly_full = Some (o, s1) ∧
           get_valid_actions s1 = Some [0; 1; 2; 3; 4; 5; 6]).
Proof.
  apply (valid_actions_are_open_columns nearly_full).
  - shape_tac.
  - simpl. lia.
Defined.

(** C8: on a reachable state [reset] returns, and so does [step] when the
    board has a top row; whatever they return, in every branch of [step],
    the observation is the board of the state left behind with every cell
    multiplied by that state's [current_player], and each of its values is
    -1, 0 or 1. *)
Theorem observation_is_board_times_player (s : Connect4Env) :
  reachable s →
  (∃ o s', reset s = Some (o, s')) ∧
  (0 < rows s → ∀ a, ∃ res s', step s a = Some (res, s')) ∧
  (∀ o s', reset s = Some (o, s') →
     o = map (map (λ x, x * current_player s')) (board s') ∧
     Forall (Forall trit) o) ∧
  (∀ a res s', step s a = Some (res, s') →
     obs res = map (map (λ x, x * current_player s')) (board s') ∧
     Forall (Forall trit) (obs res)).
Proof.
  intros Hinv%reachable_inv. split_and!.
  - apply reset_returns, Hinv.
  - intros Hrows a. apply step_returns; [apply Hinv..|done].
  - intros o s' Hreset. pose proof (reset_inv s o s' Hreset) as Hinv'.
    unfold reset in Hreset.
    destruct (np_zeros (rows s) (cols s)) as [b|]; [|done].
    injection Hreset as <- <-. by apply observation_scaled.
  - intros a res s' Hstep. rewrite (step_obs s a res s' Hstep).
    apply observation_scaled. by eapply step_inv.
Qed.

Lemma observation_is_board_times_player_witness :
  (∃ o s', reset fresh = Some (o, s')) ∧
  (0 < 6 → ∀ a, ∃ res s', step fresh a = Some (res, s')) ∧
  (∀ o s', reset fresh = Some (o, s') →
     o = map (map (λ x, x * current_player s')) (board s') ∧
     Forall (Forall trit) o) ∧
  (∀ a res s', step fresh a = Some (res, s') →
     obs res = map (map (λ x, x * current_player s')) (board s') ∧
     Forall (Forall trit) (obs res)).
Proof.
  apply (observation_is_board_times_player fresh).
  apply (reach_init 6 7 4). reflexivity.
Defined.

(** C9: in every state reachable from the constructor through [reset]
    and [step], the board keeps its shape, every cell is -1, 0 or 1, no
    cell below an occupied cell of the same column is empty, and
    [current_player] is 1 or -1. *)
Theorem reachable_states_keep_invariants (s : Connect4Env) :
  reachable s →
  well_shaped s ∧
  (∀ r c v, cell (board s) r c = Some v → trit v) ∧
  (∀ r r' c v v',
     cell (board s) r c = Some v → v ≠ 0 → r ≤ r' →
     cell (board s) r' c = Some v' → v' ≠ 0) ∧
  (current_player s = 1 ∨ current_player s = -1).
Proof.
  intros (Hws & Hp & Hcells & Hgrav)%reachable_inv. split_and!; done.
Qed.

Lemma reachable_states_keep_invariants_witness :
  well_shaped three_stacked ∧
  (∀ r c v, cell (board three_stacked) r c = Some v → trit v) ∧
  (∀ r r' c v v',
     cell (board three_stacked) r c = Some v → v ≠ 0 → r ≤ r' →
     cell (board three_stacked) r' c = Some v' → v' ≠ 0) ∧
  (current_player three_stacked = 1 ∨ current_player three_stacked = -1).
Proof.
  apply (reachable_states_keep_invariants three_stacked).
  eapply (run_steps_reachable fresh [0; 1; 0; 1; 0; 1]).
  - apply (reach_init 6 7 4). reflexivity.
  - reflexivity.
Defined.

(** C3, as stated, fails: the class keeps no record of a finished game.
    After the winning fourth piece on column 0 ([done] set, reward 1) a
    further [step] on column 1 drops another piece of player one and hands
    the turn over. *)
Lemma step_after_win_places_piece :
  ∃ res res2 s'',
    reachable three_stacked ∧
    step three_stacked 0 = Some (res, four_stacked) ∧
    done res = true ∧ reward res = 1 ∧
    step four_stacked 1 = Some (res2, s'') ∧
    cell (board four_stacked) 2 1 = Some 0 ∧
    cell (board s'') 2 1 = Some 1 ∧
    current_player four_stacked = 1 ∧
    current_player s'' = -1.
Proof.
  eexists _, _, _. split_and!; try reflexivity.
  eapply (run_steps_reachable fresh [0; 1; 0; 1; 0; 1]).
  - apply (reach_init 6 7 4). reflexivity.
  - reflexivity.
Qed.

(** C3, amended: after a [step] that returned [done], a further [step]
    leaves the state alone when its column is illegal in that state, and
    then returns [done] with reward -10 again; so any run of such calls
    ends in the same state, and after a draw, where no column is legal,
    every run of calls does.  A legal column is played as in any other
    state, which changes the board. *)
Theorem state_after_done_changes_only_by_legal_moves
    (s : Connect4Env) (a : Z) (res : StepResult) (s' : Connect4Env) :
  reachable s → step s a = Some (res, s') → done res = true →
  (∀ cs, Forall (illegal s') cs →
     ∃ rs, run_steps s' cs = Some (rs, s') ∧
           Forall (λ r, done r = true ∧ reward r = -10) rs) ∧
  (reward res = 0 → ∀ cs, ∃ rs, run_steps s' cs = Some (rs, s')) ∧
  (∀ b, legal s' b →
     ∃ res2 s2, step s' b = Some (res2, s2) ∧ board s2 ≠ board s').
Proof.
  intros Hreach Hstep Hdone.
  pose proof (reachable_inv s Hreach) as Hinv.
  pose proof (step_inv s a res s' Hinv Hstep) as (Hws' & Hp' & _).
  split_and!.
  - intros cs Hcs. by apply run_illegal.
  - intros Hreward cs.
    assert (top_row_full s') as Hfull.
    { destruct (legal_or_illegal s a res s' Hstep) as [Hlegal|Hill].
      - destruct Hinv as (Hws & Hp & _).
        destruct (step_legal s a Hws Hp Hlegal)
          as (row & s1 & win & draw & _ & _ & _ & _ & _ & Hdraw & Hout).
        rewrite Hout in Hstep. unfold outcome in Hstep.
        destruct win; [|destruct draw]; injection Hstep as <- <-; try done.
        by apply Hdraw.
      - rewrite (step_illegal s a Hill) in Hstep. by injection Hstep as <- <-. }
    destruct (run_illegal cs s') as (rs & Hrun & _).
    + apply Forall_forall. intros c _. by apply full_all_illegal.
    + by exists rs.
  - intros b Hlegal.
    destruct (step_legal s' b Hws' Hp' Hlegal)
      as (row & s1 & win & draw & _ & Hpl & _ & _ & _ & _ & Hout).
    exists (outcome s1 win draw).1, (outcome s1 win draw).2.
    split; [by rewrite <- surjective_pairing|].
    assert (board (outcome s1 win draw).2 = board s1) as ->.
    { unfold outcome. destruct win; [done|]. destruct draw; done. }
    intros Heq. pose proof (pl_here _ _ _ _ Hpl) as Hhere.
    rewrite Heq, (pl_empty _ _ _ _ Hpl) in Hhere.
    destruct Hp' as [Hp'|Hp']; rewrite Hp' in Hhere; done.
Qed.

Lemma state_after_done_changes_only_by_legal_moves_witness :
  ((∀ cs, Forall (illegal four_stacked) cs →
      ∃ rs, run_steps four_stacked cs = Some (rs, four_stacked) ∧
            Forall (λ r, done r = true ∧ reward r = -10) rs) ∧
   (1 = 0 → ∀ cs, ∃ rs, run_steps four_stacked cs = Some (rs, four_stacked)) ∧
   (∀ b, legal four_stacked b →
      ∃ res2 s2, step four_stacked b = Some (res2, s2) ∧
                 board s2 ≠ board four_stacked)) ∧
  ((∀ cs, Forall (illegal drawn) cs →
      ∃ rs, run_steps drawn cs = Some (rs, drawn) ∧
            Forall (λ r, done r = true ∧ reward r = -10) rs) ∧
   (0 = 0 → ∀ cs, ∃ rs, run_steps drawn cs = Some (rs, drawn)) ∧
   (∀ b, legal drawn b →
      ∃ res2 s2, step drawn b = Some (res2, s2) ∧ board s2 ≠ board drawn)).
Proof.
  split.
  - apply (state_after_done_changes_only_by_legal_moves three_stacked 0
             (mkResult (_get_observation four_stacked) 1 true ∅) four_stacked).
    + eapply (run_steps_reachable fresh [0; 1; 0; 1; 0; 1]).
      * apply (reach_init 6 7 4). reflexivity.
      * reflexivity.
    + reflexivity.
    + reflexivity.
  - apply (state_after_done_changes_only_by_legal_moves nearly_full 1
             (mkResult (_get_observation drawn) 0 true ∅) drawn).
    + eapply (run_steps_reachable (mkEnv 2 2 3 (replicate 2 (replicate 2 0)) 1)
                [1; 0; 0]).
      * apply (reach_init 2 2 3). reflexivity.
      * reflexivity.
    + reflexivity.
    + reflexivity.
Defined.

(** * Further properties *)

(** ** Placement on any column *)

(** X1: on a column of the board, and for a player that fits the cells
    of the array, [_place_piece] returns [None] and leaves the state as it
    is exactly when the column is full; otherwise it returns the lowest
    empty row of the column and stores the player there. *)
Theorem place_piece_none_iff_column_full (s : Connect4Env) (col p : Z) :
  well_shaped s → 0 ≤ col < cols s → -128 ≤ p ≤ 127 →
  (column_full s col ↔ _place_piece s col p = Some (None, s)) ∧
  (column_full s col ∨
   ∃ row s1,
     _place_piece s col p = Some (Some row, s1) ∧
     0 ≤ row < rows s ∧
     cell (board s) row col = Some 0 ∧
     (∀ r, row < r < rows s → ∃ v, cell (board s) r col = Some v ∧ v ≠ 0) ∧
     cell (board s1) row col = Some p).
Proof.
  intros Hws Hcol Hp%int8_small. pose proof Hws as (Hr0 & _).
  assert (∀ r, 0 ≤ r < rows s → is_Some (cell (board s) r col)) as Hcells.
  { intros r Hr. by apply well_shaped_cell. }
  assert (set_board s (board s) = s) as Hsame by by destruct s.
  unfold _place_piece.
  destruct (place_loop_down (board s) col p (Z.to_nat (rows s)))
    as [[Hloop Hnone]|(r & l & Hr & Hr0' & Habove & Hl & Hloop)].
  { intros r Hr. apply Hcells. lia. }
  - rewrite Z2Nat.id in * by lia. rewrite Hloop. simpl. rewrite Hsame.
    assert (column_full s col) as Hfull.
    { intros r Hr. destruct (Hcells r Hr) as [v Hv]. exists v. split; [done|].
      intros ->. by apply (Hnone r). }
    split; [done|by left].
  - rewrite Z2Nat.id in * by lia. rewrite Hloop. simpl. split.
    + split; [|done]. intros Hfull. destruct (Hfull r Hr) as (v & Hv & Hv0).
      congruence.
    + right. eexists r, _. split; [done|]. split_and!; try done; try lia.
      * intros r' Hr'. destruct (Hcells r') as [v Hv]; [lia|].
        exists v. split; [done|]. intros ->. by apply (Habove r').
      * simpl. rewrite Hp. pose proof Hr0' as (_ & _ & l' & Hl' & Hv)%cell_lookup.
        by eapply cell_insert_eq.
Qed.

Lemma place_piece_none_iff_column_full_witness :
  (column_full drawn 0 ↔ _place_piece drawn 0 1 = Some (None, drawn)) ∧
  (column_full drawn 0 ∨
   ∃ row s1,
     _place_piece drawn 0 1 = Some (Some row, s1) ∧
     0 ≤ row < 2 ∧
     cell (board drawn) row 0 = Some 0 ∧
     (∀ r, row < r < 2 → ∃ v, cell (board drawn) r 0 = Some v ∧ v ≠ 0) ∧
     cell (board s1) row 0 = Some 1).
Proof.
  apply (place_piece_none_iff_column_full drawn 0 1).
  - shape_tac.
  - simpl. lia.
  - lia.
Defined.

(** ** The shapes of a [step] result *)

(** X2: what [step] returns has one of four shapes: an illegal column
    gives reward -10 with [done], the "Invalid move" diagnostic and the
    state untouched; a legal column gives an empty [info] and either a win
    (1, [done]), a draw (0, [done]), both with the player kept, or a
    continuation (0, not [done]) with the player negated.  The "Failed to
    place piece" branch is never taken. *)
Theorem step_result_shapes (s : Connect4Env) (a : Z) (res : StepResult)
    (s' : Connect4Env) :
  well_shaped s → valid_player s → step s a = Some (res, s') →
  ((illegal s a ∧ s' = s ∧ reward res = -10 ∧ done res = true ∧
    info res = invalid_move_info s)
   ∨
   (legal s a ∧ info res = ∅ ∧
    (reward res = 1 ∧ done res = true ∧ current_player s' = current_player s
     ∨ reward res = 0 ∧ done res = true ∧ current_player s' = current_player s
     ∨ reward res = 0 ∧ done res = false ∧
       current_player s' = - current_player s))) ∧
  info res ≠ failed_place_info s'.
Proof.
  intros Hws Hp Hstep.
  assert (∀ t, invalid_move_info s ≠ failed_place_info t) as Hdiag.
  { intros t Heq.
    assert (invalid_move_info s !! "error" = failed_place_info t !! "error")
      as Hlook by by rewrite Heq.
    unfold invalid_move_info, failed_place_info in Hlook.
    rewrite !lookup_singleton_eq in Hlook. simpl in Hlook. discriminate. }
  assert (∀ t, (∅ : gmap string string) ≠ failed_place_info t) as Hempty.
  { intros t Heq.
    assert ((∅ : gmap string string) !! "error" = failed_place_info t !! "error")
      as Hlook by by rewrite Heq.
    unfold failed_place_info in Hlook.
    rewrite lookup_singleton_eq, lookup_empty in Hlook. discriminate. }
  destruct (legal_or_illegal s a res s' Hstep) as [Hlegal|Hill].
  - destruct (step_legal s a Hws Hp Hlegal)
      as (row & s1 & win & draw & _ & Hpl & _ & _ & _ & _ & Hout).
    rewrite Hout in Hstep. unfold outcome in Hstep.
    pose proof (pl_player _ _ _ _ Hpl) as Hplayer.
    destruct win; [|destruct draw]; injection Hstep as <- <-; simpl.
    + split; [|apply Hempty]. right. split_and!; try done. by left.
    + split; [|apply Hempty]. right. split_and!; try done. right. by left.
    + split; [|apply Hempty]. right. split_and!; try done. right. right.
      split_and!; try done. lia.
  - rewrite (step_illegal s a Hill) in Hstep. injection Hstep as <- <-. simpl.
    split; [|apply Hdiag]. by left.
Qed.

Lemma step_result_shapes_witness :
  ((illegal three_stacked 0 ∧ four_stacked = three_stacked ∧ 1 = -10 ∧
    true = true ∧ (∅ : gmap string string) = invalid_move_info three_stacked)
   ∨
   (legal three_stacked 0 ∧ (∅ : gmap string string) = ∅ ∧
    (1 = 1 ∧ true = true ∧ current_player four_stacked = current_player three_stacked
     ∨ 1 = 0 ∧ true = true ∧
       current_player four_stacked = current_player three_stacked
     ∨ 1 = 0 ∧ true = false ∧
       current_player four_stacked = - current_player three_stacked))) ∧
  (∅ : gmap string string) ≠ failed_place_info four_stacked.
Proof.
  apply (step_result_shapes three_stacked 0
           (mkResult (_get_observation four_stacked) 1 true ∅) four_stacked).
  - shape_tac.
  - player_tac.
  - reflexivity.
Defined.

(** ** Valid actions, legality and the penalty *)

Lemma legal_illegal_dec (s : Connect4Env) (a : Z) :
  well_shaped s → 0 < rows s → legal s a ∨ illegal s a.
Proof.
  intros Hws Hrows. destruct (decide (0 ≤ a < cols s)) as [Ha|Ha]; [|right; by left].
  destruct (well_shaped_cell s 0 a Hws) as [v Hv]; [lia|done|].
  destruct (decide (v = 0)) as [->|Hv0]; [by left|].
  right. right. split; [done|]. by exists v.
Qed.

Lemma legal_not_illegal (s : Connect4Env) (a : Z) : legal s a → ¬ illegal s a.
Proof.
  intros [Ha Htop] [Hout|(_ & v & Hv & Hv0)]; [done|]. congruence.
Qed.

Lemma valid_actions_legal (s : Connect4Env) :
  well_shaped s → 0 < rows s →
  ∃ l, get_valid_actions s = Some l ∧
       l = filter (λ c, cell (board s) 0 c = Some 0) (py_range 0 (cols s)) ∧
       ∀ c, c ∈ l ↔ legal s c.
Proof.
  intros Hws Hrows. eexists. split_and!; [|reflexivity|].
  - unfold get_valid_actions. apply valid_cols_filter.
    apply Forall_forall. intros c Hc%py_range_elem. split; [lia|].
    apply well_shaped_cell; [done|lia|lia].
  - intros c. rewrite list_elem_of_filter, py_range_elem. unfold legal. tauto.
Qed.

(** X3: the columns listed by [get_valid_actions] are the ones
    [_is_valid_action] accepts, and the ones on which [step] does not
    return the penalty of -10; on every other column [step] returns the
    penalty with [done] and leaves the state alone. *)
Theorem valid_actions_avoid_penalty (s : Connect4Env) :
  well_shaped s → valid_player s → 0 < rows s →
  ∃ l, get_valid_actions s = Some l ∧
    ∀ a,
      (a ∈ l ↔ _is_valid_action s a = Some true) ∧
      (a ∈ l ↔ ∃ res s', step s a = Some (res, s') ∧ reward res ≠ -10) ∧
      (a ∉ l ↔ ∃ res, step s a = Some (res, s) ∧ reward res = -10 ∧
                       done res = true).
Proof.
  intros Hws Hp Hrows.
  destruct (valid_actions_legal s Hws Hrows) as (l & Hl & _ & Hmem).
  exists l. split; [done|]. intros a.
  assert (legal s a → ∃ res s', step s a = Some (res, s') ∧ reward res ≠ -10)
    as Hgood.
  { intros Hlegal.
    destruct (step_legal s a Hws Hp Hlegal)
      as (row & s1 & win & draw & _ & _ & _ & _ & _ & _ & Hout).
    rewrite Hout. unfold outcome.
    destruct win; [|destruct draw]; eexists _, _; split; try done. }
  split_and!.
  - rewrite Hmem. symmetry. apply is_valid_action_legal.
  - rewrite Hmem. split; [done|]. intros (res & s' & Hstep & Hreward).
    destruct (legal_or_illegal s a res s' Hstep) as [|Hill]; [done|].
    rewrite (step_illegal s a Hill) in Hstep. by injection Hstep as <- <-.
  - rewrite Hmem. split.
    + intros Hnot. destruct (legal_illegal_dec s a Hws Hrows) as [|Hill]; [done|].
      eexists. split; [by apply step_illegal|done].
    + intros (res & Hstep & Hreward & _) Hlegal.
      destruct (Hgood Hlegal) as (res' & s' & Hstep' & Hne). congruence.
Qed.

Lemma valid_actions_avoid_penalty_witness :
  ∃ l, get_valid_actions nearly_full = Some l ∧
    ∀ a,
      (a ∈ l ↔ _is_valid_action nearly_full a = Some true) ∧
      (a ∈ l ↔ ∃ res s', step nearly_full a = Some (res, s') ∧ reward res ≠ -10) ∧
      (a ∉ l ↔ ∃ res, step nearly_full a = Some (res, nearly_full) ∧
                       reward res = -10 ∧ done res = true).
Proof.
  apply (valid_actions_avoid_penalty nearly_full).
  - shape_tac.
  - player_tac.
  - simpl. lia.
Defined.

(** X4: on a reachable state with a top row, [_is_draw] answers [True]
    exactly when every cell of the board is occupied (a full top row has
    full columns beneath it), and exactly when [get_valid_actions] is
    empty. *)
Theorem draw_iff_board_full (s : Connect4Env) :
  reachable s → 0 < rows s →
  ∃ draw : bool,
    _is_draw s = Some draw ∧
    (draw = true ↔ board_full s) ∧
    (draw = true ↔ get_valid_actions s = Some []).
Proof.
  intros (Hws & Hp & _ & Hgrav)%reachable_inv Hrows.
  destruct (is_draw_spec s Hws Hrows) as (draw & Hdraw & Hfull).
  destruct (valid_actions_legal s Hws Hrows) as (l & Hl & _ & Hmem).
  exists draw. split_and!; [done| |]; rewrite Hfull.
  - split.
    + intros Htop r c Hr Hc. destruct (Htop c Hc) as (v & Hv & Hv0).
      destruct (well_shaped_cell s r c Hws Hr Hc) as [v' Hv'].
      exists v'. split; [done|]. apply (Hgrav 0 r c v v'); [done|done|lia|done].
    + intros Hall c Hc. apply Hall; [lia|done].
  - rewrite Hl. split.
    + intros Htop. f_equal. apply elem_of_nil_inv. intros c Hc%Hmem.
      eapply legal_not_illegal; [done|]. by apply full_all_illegal.
    + intros [= ->] c Hc.
      destruct (well_shaped_cell s 0 c Hws) as [v Hv]; [lia|done|].
      exists v. split; [done|]. intros ->.
      apply (elem_of_nil c), Hmem. by split.
Qed.

Lemma draw_iff_board_full_witness :
  ∃ draw : bool,
    _is_draw drawn = Some draw ∧
    (draw = true ↔ board_full drawn) ∧
    (draw = true ↔ get_valid_actions drawn = Some []).
Proof.
  apply (draw_iff_board_full drawn).
  - apply (run_steps_reachable (mkEnv 2 2 3 (replicate 2 (replicate 2 0)) 1)
             [1; 0; 0; 1]
             ltac:(run_results (mkEnv 2 2 3 (replicate 2 (replicate 2 0)) 1)
                     [1; 0; 0; 1])).
    + apply (reach_init 2 2 3). reflexivity.
    + vm_compute. reflexivity.
  - simpl. lia.
Defined.

(** X5: after a legal [step] the list of valid actions is the old one,
    without the column just played when the piece landed in the top row. *)
Theorem valid_actions_after_legal_step (s : Connect4Env) (col : Z) :
  well_shaped s → valid_player s → legal s col →
  ∃ row res s' l,
    step s col = Some (res, s') ∧
    cell (board s) row col = Some 0 ∧
    cell (board s') row col = Some (current_player s) ∧
    get_valid_actions s = Some l ∧
    get_valid_actions s' =
      Some (if decide (row = 0) then filter (λ c, c ≠ col) l else l).
Proof.
  intros Hws Hp Hlegal.
  destruct (step_legal s col Hws Hp Hlegal)
    as (row & s1 & win & draw & _ & Hpl & _ & _ & _ & _ & Hout).
  pose proof (pl_row _ _ _ _ Hpl) as Hrow.
  destruct (valid_actions_legal s Hws) as (l & Hl & Hfilter & _); [lia|].
  destruct (valid_actions_legal s1 (pl_shape _ _ _ _ Hpl)) as (l1 & Hl1 & Hfilter1 & _).
  { rewrite (pl_rows _ _ _ _ Hpl). lia. }
  exists row, (outcome s1 win draw).1, (outcome s1 win draw).2, l.
  assert (board (outcome s1 win draw).2 = board s1 ∧
          get_valid_actions (outcome s1 win draw).2 = get_valid_actions s1)
    as [-> ->].
  { unfold outcome. destruct win; [done|]. destruct draw; done. }
  split_and!; [by rewrite <- surjective_pairing|apply Hpl..|done|].
  rewrite Hl1. f_equal. rewrite Hfilter1, Hfilter, (pl_cols _ _ _ _ Hpl).
  assert (current_player s ≠ 0) as Hcp by (destruct Hp as [-> | ->]; lia).
  case_decide as Hrow0.
  - subst row. rewrite list_filter_filter. apply list_filter_iff. intros c.
    destruct (decide (c = col)) as [->|Hne].
    + rewrite (pl_here _ _ _ _ Hpl). split; [|tauto]. intros [=]. lia.
    + rewrite (pl_frame _ _ _ _ Hpl) by congruence. tauto.
  - apply list_filter_iff. intros c.
    rewrite (pl_frame _ _ _ _ Hpl) by congruence. done.
Qed.

Lemma valid_actions_after_legal_step_witness :
  ∃ row res s' l,
    step nearly_full 1 = Some (res, s') ∧
    cell (board nearly_full) row 1 = Some 0 ∧
    cell (board s') row 1 = Some (-1) ∧
    get_valid_actions nearly_full = Some l ∧
    get_valid_actions s' =
      Some (if decide (row = 0) then filter (λ c, c ≠ 1) l else l).
Proof.
  apply (valid_actions_after_legal_step nearly_full 1).
  - shape_tac.
  - player_tac.
  - legal_tac.
Defined.

(** ** What a step keeps *)

Lemma outcome_state (s1 : Connect4Env) (win draw : bool) :
  board (outcome s1 win draw).2 = board s1 ∧
  rows (outcome s1 win draw).2 = rows s1 ∧
  cols (outcome s1 win draw).2 = cols s1 ∧
  win_length (outcome s1 win draw).2 = win_length s1.
Proof. unfold outcome. destruct win; [done|]. destruct draw; done. Qed.

Lemma step_config (s : Connect4Env) (a : Z) (res : StepResult) (s' : Connect4Env) :
  step s a = Some (res, s') →
  rows s' = rows s ∧ cols s' = cols s ∧ win_length s' = win_length s.
Proof.
  unfold step.
  destruct (_is_valid_action s a) as [[|]|]; simpl; [| |done].
  - unfold _place_piece.
    destruct (place_loop (board s) a (current_player s)
                (py_range_down (rows s - 1) (-1))) as [[[row|] b']|];
      cbn -[_check_win_from_move _is_draw _get_observation]; [| |done].
    + destruct (_check_win_from_move (set_board s b') (Some row) a (current_player s))
        as [[|]|]; cbn -[_is_draw _get_observation]; [| |done].
      * by intros [= _ <-].
      * destruct (_is_draw (set_board s b')) as [[|]|]; cbn -[_get_observation];
          [| |done]; by intros [= _ <-].
    + by intros [= _ <-].
  - by intros [= _ <-].
Qed.

Lemma run_steps_config (cs : list Z) (s : Connect4Env) (rs : list StepResult)
    (s' : Connect4Env) :
  run_steps s cs = Some (rs, s') →
  rows s' = rows s ∧ cols s' = cols s ∧ win_length s' = win_length s.
Proof.
  revert s rs. induction cs as [|c cs IH]; intros s rs; simpl.
  - by intros [= _ <-].
  - destruct (step s c) as [[res s1]|] eqn:Hstep; [|done]. simpl.
    destruct (run_steps s1 cs) as [[rest s2]|] eqn:Hrun; [|done]. simpl.
    intros [= _ <-].
    destruct (step_config s c res s1 Hstep) as (Hr & Hc & Hw).
    destruct (IH s1 rest Hrun) as (Hr' & Hc' & Hw'). split_and!; congruence.
Qed.

Lemma step_keeps_pieces (s : Connect4Env) (a : Z) (res : StepResult)
    (s' : Connect4Env) (r c v : Z) :
  well_shaped s → valid_player s → step s a = Some (res, s') →
  cell (board s) r c = Some v → v ≠ 0 → cell (board s') r c = Some v.
Proof.
  intros Hws Hp Hstep Hv Hv0.
  destruct (legal_or_illegal s a res s' Hstep) as [Hlegal|Hill].
  - destruct (step_legal s a Hws Hp Hlegal)
      as (row & s1 & win & draw & _ & Hpl & _ & _ & _ & _ & Hout).
    rewrite Hout in Hstep. injection Hstep as Heq.
    assert (s' = (outcome s1 win draw).2) as -> by by rewrite Heq.
    destruct (outcome_state s1 win draw) as (-> & _).
    rewrite (pl_frame _ _ _ _ Hpl); [done|].
    intros [= -> ->]. rewrite (pl_empty _ _ _ _ Hpl) in Hv. congruence.
  - rewrite (step_illegal s a Hill) in Hstep. by injection Hstep as _ <-.
Qed.

(** X6: no run of [step] calls, legal or not, finished game or not, ever
    removes or recolours a piece: a cell that is occupied keeps its value. *)
Theorem pieces_are_never_changed (s : Connect4Env) (cs : list Z)
    (rs : list StepResult) (s' : Connect4Env) :
  reachable s → run_steps s cs = Some (rs, s') →
  ∀ r c v, cell (board s) r c = Some v → v ≠ 0 → cell (board s') r c = Some v.
Proof.
  intros Hreach%reachable_inv. revert s rs Hreach.
  induction cs as [|a cs IH]; intros s rs Hinv; simpl.
  - by intros [= _ <-].
  - destruct (step s a) as [[res s1]|] eqn:Hstep; [|done]. simpl.
    destruct (run_steps s1 cs) as [[rest s2]|] eqn:Hrun; [|done]. simpl.
    intros [= _ <-] r c v Hv Hv0.
    apply (IH s1 rest); [by eapply step_inv|done| |done].
    destruct Hinv as (Hws & Hp & _). by eapply step_keeps_pieces.
Qed.

Lemma pieces_are_never_changed_witness :
  cell (board three_stacked) 4 1 = Some (-1) ∧
  cell (board four_stacked) 4 1 = Some (-1).
Proof.
  split; [reflexivity|].
  apply (pieces_are_never_changed three_stacked [7; 0; -1]
           ltac:(run_results three_stacked [7; 0; -1]) four_stacked).
  - apply (run_steps_reachable fresh [0; 1; 0; 1; 0; 1]
             ltac:(run_results fresh [0; 1; 0; 1; 0; 1])).
    + apply (reach_init 6 7 4). reflexivity.
    + vm_compute. reflexivity.
  - vm_compute. reflexivity.
  - reflexivity.
  - lia.
Defined.

(** X7: [reset] after any run of [step] calls gives back exactly the state
    the constructor built, together with the all-zero observation. *)
Theorem reset_restores_constructed_state (r c w : Z) (s0 : Connect4Env)
    (cs : list Z) (rs : list StepResult) (s : Connect4Env) :
  __init__ r c w = Some s0 → run_steps s0 cs = Some (rs, s) →
  reset s = Some (board s0, s0) ∧
  board s0 = replicate (Z.to_nat r) (replicate (Z.to_nat c) 0).
Proof.
  unfold __init__. destruct (np_zeros r c) as [b|] eqn:Hb; [|done].
  intros [= <-] Hrun.
  destruct (run_steps_config cs _ rs s Hrun) as (Hrows & Hcols & Hwin).
  simpl in *. unfold reset. rewrite Hrows, Hcols, Hb. simpl.
  unfold set_current_player, set_board. simpl. rewrite Hrows, Hcols, Hwin.
  unfold np_zeros in Hb. case_bool_decide; [|done]. injection Hb as <-.
  split; [|done]. do 2 f_equal. unfold _get_observation. simpl.
  generalize (Z.to_nat r) as n. generalize (Z.to_nat c) as m. intros m n.
  induction n as [|n IH]; simpl; [done|]. f_equal; [|done].
  clear IH. induction m as [|m IH]; simpl; [done|]. by f_equal.
Qed.

Lemma reset_restores_constructed_state_witness :
  reset four_stacked = Some (board fresh, fresh) ∧
  board fresh = replicate (Z.to_nat 6) (replicate (Z.to_nat 7) 0).
Proof.
  apply (reset_restores_constructed_state 6 7 4 fresh [0; 1; 0; 1; 0; 1; 0]
           ltac:(run_results fresh [0; 1; 0; 1; 0; 1; 0])).
  - reflexivity.
  - vm_compute. reflexivity.
Defined.

(** ** The observation *)

Lemma cell_map (f : Z → Z) (b : list (list Z)) (r c : Z) :
  cell (map (map f) b) r c = f <$> cell b r c.
Proof.
  unfold cell. case_bool_decide; [|done].
  change (map (map f) b) with (map f <$> b). rewrite list_lookup_fmap.
  destruct (b !! Z.to_nat r) as [l|]; simpl; [|done].
  change (map f l) with (f <$> l). by rewrite list_lookup_fmap.
Qed.

(** X8: in the observation a legal [step] returns, the piece just placed
    reads 1 when the step ended the game (win or draw: the mover's own
    view) and -1 when the game goes on (the view of the player to move
    next). *)
Theorem placed_piece_in_observation (s : Connect4Env) (col : Z) :
  well_shaped s → valid_player s → legal s col →
  ∃ row res s',
    step s col = Some (res, s') ∧
    cell (board s) row col = Some 0 ∧
    cell (board s') row col = Some (current_player s) ∧
    cell (obs res) row col = Some (if done res then 1 else -1).
Proof.
  intros Hws Hp Hlegal.
  destruct (step_legal s col Hws Hp Hlegal)
    as (row & s1 & win & draw & _ & Hpl & _ & _ & _ & _ & Hout).
  pose proof (pl_here _ _ _ _ Hpl) as Hhere.
  pose proof (pl_player _ _ _ _ Hpl) as Hplayer.
  exists row, (outcome s1 win draw).1, (outcome s1 win draw).2.
  destruct (outcome_state s1 win draw) as (-> & _).
  split_and!; [by rewrite <- surjective_pairing|apply Hpl|done|].
  unfold outcome, _get_observation.
  destruct win; [|destruct draw]; simpl; rewrite cell_map, Hhere, ?Hplayer; simpl;
    destruct Hp as [-> | ->]; reflexivity.
Qed.

Lemma placed_piece_in_observation_witness :
  ∃ row res s',
    step fresh 3 = Some (res, s') ∧
    cell (board fresh) row 3 = Some 0 ∧
    cell (board s') row 3 = Some 1 ∧
    cell (obs res) row 3 = Some (if done res then 1 else -1).
Proof.
  apply (placed_piece_in_observation fresh 3).
  - shape_tac.
  - player_tac.
  - legal_tac.
Defined.

(** X9: on a reachable state, multiplying the observation by
    [current_player] once more gives the board back, and the observation
    computed for the other player is the negated observation. *)
Theorem observation_round_trip (s : Connect4Env) :
  reachable s →
  map (map (λ x, x * current_player s)) (_get_observation s) = board s ∧
  _get_observation (set_current_player s (current_player s * -1)) =
    map (map Z.opp) (_get_observation s).
Proof.
  intros Hinv%reachable_inv.
  destruct (observation_scaled s Hinv) as [Hobs _].
  destruct (observation_scaled _ (flip_inv s Hinv)) as [Hflip _].
  destruct Hinv as (_ & Hp & _).
  rewrite Hflip, Hobs. simpl. rewrite !map_map. split.
  - rewrite <- (map_id (board s)) at 2. apply map_ext. intros l.
    rewrite map_map. rewrite <- (map_id l) at 2. apply map_ext. intros x.
    destruct Hp as [-> | ->]; lia.
  - apply map_ext. intros l. rewrite map_map. apply map_ext. intros x. lia.
Qed.

Lemma observation_round_trip_witness :
  map (map (λ x, x * current_player nearly_full)) (_get_observation nearly_full) =
    board nearly_full ∧
  _get_observation (set_current_player nearly_full (current_player nearly_full * -1)) =
    map (map Z.opp) (_get_observation nearly_full).
Proof.
  apply (observation_round_trip nearly_full).
  apply (run_steps_reachable (mkEnv 2 2 3 (replicate 2 (replicate 2 0)) 1)
           [1; 0; 0]
           ltac:(run_results (mkEnv 2 2 3 (replicate 2 (replicate 2 0)) 1) [1; 0; 0])).
  - apply (reach_init 2 2 3). reflexivity.
  - vm_compute. reflexivity.
Defined.

(** ** Extreme values of [win_length] *)

(** X10: with [win_length] at most 1 the counter, which starts at 1,
    already reaches it: every legal [step] is a win. *)
Theorem short_win_length_always_wins (s : Connect4Env) (col : Z) :
  well_shaped s → valid_player s → legal s col → win_length s ≤ 1 →
  ∃ res s', step s col = Some (res, s') ∧ reward res = 1 ∧ done res = true.
Proof.
  intros Hws Hp Hlegal Hshort.
  destruct (step_legal s col Hws Hp Hlegal)
    as (row & s1 & win & draw & _ & Hpl & _ & Hwin & _ & _ & Hout).
  assert (win = true) as ->.
  { apply Hwin. exists (0, 1). split; [by left|].
    pose proof (pl_win_length _ _ _ _ Hpl) as Hwl.
    exists 0, 0. split_and!; try lia.
    intros i Hi. assert (i = 0) as -> by lia.
    replace (row + 0 * (0, 1).1) with row by (simpl; lia).
    replace (col + 0 * (0, 1).2) with col by (simpl; lia).
    split_and!; rewrite ?(pl_rows _ _ _ _ Hpl), ?(pl_cols _ _ _ _ Hpl);
      apply Hpl. }
  rewrite Hout. by eexists _, _.
Qed.

Lemma short_win_length_always_wins_witness :
  ∃ res s',
    step (mkEnv 2 2 1 [[0; 0]; [0; 0]] 1) 0 = Some (res, s') ∧
    reward res = 1 ∧ done res = true.
Proof.
  apply (short_win_length_always_wins (mkEnv 2 2 1 [[0; 0]; [0; 0]] 1) 0).
  - shape_tac.
  - player_tac.
  - legal_tac.
  - simpl. lia.
Defined.

(** X11: with [win_length] larger than both dimensions of the board no
    line fits: [step] never returns the winning reward. *)
Theorem long_win_length_never_wins (s : Connect4Env) (a : Z) (res : StepResult)
    (s' : Connect4Env) :
  well_shaped s → valid_player s →
  rows s < win_length s → cols s < win_length s →
  step s a = Some (res, s') → reward res ≠ 1.
Proof.
  intros Hws Hp Hrows Hcols Hstep.
  destruct (legal_or_illegal s a res s' Hstep) as [Hlegal|Hill].
  - destruct (step_legal s a Hws Hp Hlegal)
      as (row & s1 & win & draw & _ & Hpl & _ & Hwin & _ & _ & Hout).
    rewrite Hout in Hstep. unfold outcome in Hstep.
    destruct win; [|destruct draw; by injection Hstep as <- <-].
    exfalso. destruct (proj1 Hwin eq_refl) as (d & Hd & (x & y & Hx & Hy & Hw & Hline)).
    rewrite (pl_win_length _ _ _ _ Hpl) in Hw.
    destruct (Hline x) as (Hr1 & Hc1 & _); [lia|].
    destruct (Hline (- y)) as (Hr2 & Hc2 & _); [lia|].
    rewrite (pl_rows _ _ _ _ Hpl) in *. rewrite (pl_cols _ _ _ _ Hpl) in *.
    unfold directions in Hd.
    repeat (apply elem_of_cons in Hd as [-> | Hd]); simpl in *; try lia.
    by apply elem_of_nil in Hd.
  - rewrite (step_illegal s a Hill) in Hstep. by injection Hstep as <- <-.
Qed.

Lemma long_win_length_never_wins_witness : (0 : Z) ≠ 1.
Proof.
  apply (long_win_length_never_wins nearly_full 1
           (mkResult (_get_observation drawn) 0 true ∅) drawn).
  - shape_tac.
  - player_tac.
  - simpl. lia.
  - simpl. lia.
  - reflexivity.
Defined.

(** ** A board without rows *)

(** X12: on a board built with zero rows and at least one column, the
    read of the top row raises: in [step] on a column of the board, in
    [_is_draw] and in [get_valid_actions]; a column off the board is still
    rejected without touching the array. *)
Theorem board_without_rows_raises (c w : Z) (s : Connect4Env) :
  __init__ 0 c w = Some s → 0 < c →
  (∀ a, 0 ≤ a < c → step s a = None) ∧
  (∀ a, ¬ (0 ≤ a < c) → ∃ res, step s a = Some (res, s) ∧ reward res = -10) ∧
  _is_draw s = None ∧
  get_valid_actions s = None.
Proof.
  unfold __init__, np_zeros. case_bool_decide as Hc; [|done]. simpl.
  intros [= <-] Hpos. split_and!.
  - intros a Ha. unfold step, _is_valid_action. simpl.
    destruct (0 <=? a) eqn:H0; [|lia]. destruct (a <? c) eqn:H1; [|lia]. done.
  - intros a Ha. eexists. split; [apply step_illegal; by left|reflexivity].
  - done.
  - unfold get_valid_actions. simpl.
    destruct (py_range 0 c) as [|x xs] eqn:Hrange; [|done].
    apply (f_equal length) in Hrange. rewrite py_range_length in Hrange.
    simpl in Hrange. lia.
Qed.

Lemma board_without_rows_raises_witness :
  (∀ a, 0 ≤ a < 7 → step (mkEnv 0 7 4 [] 1) a = None) ∧
  (∀ a, ¬ (0 ≤ a < 7) →
        ∃ res, step (mkEnv 0 7 4 [] 1) a = Some (res, mkEnv 0 7 4 [] 1) ∧
               reward res = -10) ∧
  _is_draw (mkEnv 0 7 4 [] 1) = None ∧
  get_valid_actions (mkEnv 0 7 4 [] 1) = None.
Proof.
  apply (board_without_rows_raises 7 4 (mkEnv 0 7 4 [] 1)).
  - reflexivity.
  - lia.
Defined.

(** ** Counting pieces: how long a game can run *)

Lemma filter_insert_zero (l : list Z) (j : nat) (x : Z) :
  l !! j = Some 0 → x ≠ 0 →
  length (filter (λ v, v ≠ 0) (<[j := x]> l)) =
  S (length (filter (λ v, v ≠ 0) l)).
Proof.
  intros Hj Hx. revert j Hj. induction l as [|v l IH]; intros [|j] Hj; try done.
  - injection Hj as ->. simpl.
    rewrite filter_cons_True by done. by rewrite filter_cons_False by tauto.
  - simpl in *. rewrite !filter_cons. destruct (decide (v ≠ 0)); simpl; by rewrite IH.
Qed.

Lemma occupied_insert (b : list (list Z)) (i j : nat) (l : list Z) (x : Z) :
  b !! i = Some l → l !! j = Some 0 → x ≠ 0 →
  occupied (<[i := <[j := x]> l]> b) = S (occupied b).
Proof.
  intros Hi Hj Hx. revert i Hi. induction b as [|l0 b IH]; intros [|i] Hi; try done.
  - injection Hi as ->. unfold occupied. simpl. by rewrite filter_insert_zero.
  - unfold occupied in *. simpl in *. rewrite IH by done. lia.
Qed.

Lemma occupied_zeros (n m : nat) : occupied (replicate n (replicate m 0)) = 0%nat.
Proof.
  unfold occupied. induction n as [|n IH]; simpl; [done|]. rewrite IH.
  clear IH. induction m as [|m IH]; simpl; [done|].
  by rewrite filter_cons_False by tauto.
Qed.

Lemma occupied_bound (m : nat) (b : list (list Z)) :
  Forall (λ l : list Z, length l = m) b → (occupied b ≤ length b * m)%nat.
Proof.
  unfold occupied. induction 1 as [|l b Hl _ IH]; simpl; [done|].
  pose proof (length_filter (λ v, v ≠ 0) l). lia.
Qed.

Lemma occupied_max_full (m : nat) (b : list (list Z)) :
  Forall (λ l : list Z, length l = m) b → (length b * m ≤ occupied b)%nat →
  Forall (Forall (λ v, v ≠ 0)) b.
Proof.
  induction 1 as [|l b Hl Hb IH]; intros Hmax; [done|].
  pose proof (occupied_bound m b Hb) as Hle.
  pose proof (length_filter (λ v, v ≠ 0) l) as Hrow.
  unfold occupied in *. simpl in Hmax. constructor; [|apply IH; lia].
  destruct (decide (Forall (λ v, v ≠ 0) l)) as [|Hnot]; [done|]. exfalso.
  apply not_Forall_Exists in Hnot; [|apply _].
  apply Exists_exists in Hnot as (v & Hv & Hv0).
  pose proof (length_filter_lt (λ v, v ≠ 0) l v Hv Hv0). lia.
Qed.

(** A step that returns [done] clear has dropped a piece and left an empty
    cell in the top row. *)
Lemma nonterminal_step (s : Connect4Env) (a : Z) (res : StepResult)
    (s' : Connect4Env) :
  env_inv s → step s a = Some (res, s') → done res = false →
  occupied (board s') = S (occupied (board s)) ∧
  (occupied (board s') < Z.to_nat (rows s) * Z.to_nat (cols s))%nat.
Proof.
  intros (Hws & Hp & _) Hstep Hdone.
  destruct (legal_or_illegal s a res s' Hstep) as [Hlegal|Hill].
  2: { rewrite (step_illegal s a Hill) in Hstep. by injection Hstep as <- <-. }
  destruct (place_piece_legal s a (current_player s) Hws Hlegal)
    as (row & l & Hrow & Hempty & _ & Hl & Hplace).
  destruct (step_legal s a Hws Hp Hlegal)
    as (row' & s1 & win & draw & Hplace' & Hpl & _ & _ & _ & Hdraw & Hout).
  rewrite Hplace in Hplace'. injection Hplace' as <- <-.
  rewrite Hout in Hstep. unfold outcome in Hstep.
  destruct win; [|destruct draw]; injection Hstep as <- <-; try done.
  simpl in *.
  assert (occupied (<[Z.to_nat row := <[Z.to_nat a := int8 (current_player s)]> l]>
                       (board s)) = S (occupied (board s))) as Hocc.
  { apply occupied_insert; [done| |].
    - apply cell_lookup in Hempty as (_ & _ & l' & Hl' & Hv). congruence.
    - rewrite (int8_player s Hp). destruct Hp as [-> | ->]; lia. }
  split; [done|].
  match goal with |- (?n < ?m)%nat => destruct (decide (n < m)%nat) as [|Hge] end;
    [done|].
  exfalso. assert (false = true) as Habs; [|done]. apply Hdraw.
  pose proof (pl_shape _ _ _ _ Hpl) as Hws1.
  pose proof Hws1 as (_ & _ & Hlen & Hall). simpl in Hlen, Hall.
  pose proof (occupied_max_full _ _ Hall) as Hfull. simpl in Hfull.
  rewrite Hlen in Hfull. specialize (Hfull ltac:(lia)).
  intros c Hc. simpl in Hc.
  destruct (well_shaped_cell _ 0 c Hws1) as [v Hv]; [simpl; lia|done|].
  exists v. split; [done|].
  apply cell_lookup in Hv as (_ & _ & l' & Hl' & Hv).
  apply (Forall_lookup_1 _ _ _ _ (Forall_lookup_1 _ _ _ _ Hfull Hl') Hv).
Qed.

Lemma nonterminal_run (cs : list Z) (s : Connect4Env) (rs : list StepResult)
    (s' : Connect4Env) :
  env_inv s → run_steps s cs = Some (rs, s') →
  Forall (λ r, done r = false) rs →
  occupied (board s') = (occupied (board s) + length cs)%nat ∧
  (cs ≠ [] →
   (occupied (board s') < Z.to_nat (rows s) * Z.to_nat (cols s))%nat).
Proof.
  revert s rs. induction cs as [|a cs IH]; intros s rs Hinv; simpl.
  - intros [= _ <-] _. split; [lia|done].
  - destruct (step s a) as [[res s1]|] eqn:Hstep; [|done]. simpl.
    destruct (run_steps s1 cs) as [[rest s2]|] eqn:Hrun; [|done]. simpl.
    intros [= <- <-] [Hdone Hrest]%Forall_cons.
    destruct (nonterminal_step s a res s1 Hinv Hstep Hdone) as [Hocc Hlt].
    destruct (IH s1 rest (step_inv s a res s1 Hinv Hstep) Hrun Hrest)
      as [Hocc' Hlt'].
    destruct (step_config s a res s1 Hstep) as (Hr & Hc & _).
    split; [lia|]. intros _. destruct cs as [|b cs].
    + simpl in Hrun. injection Hrun as _ <-. done.
    + rewrite <- Hr, <- Hc. by apply Hlt'.
Qed.

(** X13: in a game played from [reset] in which no step has returned
    [done] yet, the board holds one piece per step, and the number of
    steps is below [rows * cols]: a game is over after at most
    [rows * cols] calls of [step]. *)
Theorem running_game_is_bounded (s : Connect4Env) (o : list (list Z))
    (s0 : Connect4Env) (cs : list Z) (rs : list StepResult) (s' : Connect4Env) :
  reachable s → reset s = Some (o, s0) →
  run_steps s0 cs = Some (rs, s') →
  Forall (λ r, done r = false) rs →
  occupied (board s') = length cs ∧
  (cs ≠ [] → Z.of_nat (length cs) < rows s * cols s).
Proof.
  intros Hreach Hreset Hrun Hdone.
  pose proof (reset_inv s o s0 Hreset) as Hinv0.
  destruct (nonterminal_run cs s0 rs s' Hinv0 Hrun Hdone) as [Hocc Hlt].
  unfold reset, np_zeros in Hreset. case_bool_decide as Hdims; [|done].
  injection Hreset as _ <-. simpl in *. rewrite occupied_zeros in Hocc.
  split; [lia|]. intros Hne. specialize (Hlt Hne). nia.
Qed.

Lemma running_game_is_bounded_witness :
  occupied (board three_stacked) = length [0; 1; 0; 1; 0; 1] ∧
  ([0; 1; 0; 1; 0; 1] ≠ [] → Z.of_nat (length [0; 1; 0; 1; 0; 1]) < 6 * 7).
Proof.
  apply (running_game_is_bounded fresh (board fresh) fresh [0; 1; 0; 1; 0; 1]
           ltac:(run_results fresh [0; 1; 0; 1; 0; 1])).
  - apply (reach_init 6 7 4). reflexivity.
  - reflexivity.
  - vm_compute. reflexivity.
  - repeat constructor.
Defined.

(** ** The win check sees every line *)

(** Dropping one piece creates a line exactly when the check at the
    placed cell finds one. *)
Lemma placed_line (s s1 : Connect4Env) (row col : Z) (win : bool) :
  valid_player s → placed_at s s1 row col →
  (win = true ↔
     ∃ d, d ∈ directions ∧ line_within s1 (current_player s) row col d) →
  (has_line s1 ↔ has_line s ∨ win = true).
Proof.
  intros Hp Hpl Hwin.
  pose proof (pl_win_length _ _ _ _ Hpl) as Hwl.
  pose proof (pl_rows _ _ _ _ Hpl) as Hrows.
  pose proof (pl_cols _ _ _ _ Hpl) as Hcols.
  assert (current_player s ≠ 0) as Hcp by (destruct Hp as [-> | ->]; lia).
  split.
  - intros (p & r & c & d & Hp0 & Hd & Hline).
    destruct win; [by right|left].
    exists p, r, c, d. split_and!; try done. intros i Hi.
    destruct (Hline i) as (Hr & Hc & Hcell); [lia|].
    destruct (decide ((r + i * d.1, c + i * d.2) = (row, col))) as [Heq|Hne].
    + exfalso. injection Heq as Hrow Hcol.
      rewrite Hrow, Hcol, (pl_here _ _ _ _ Hpl) in Hcell. injection Hcell as <-.
      assert (false = true) as Habs; [|done]. apply Hwin.
      exists d. split; [by apply directions_axes|]. apply line_within_through.
      exists (win_length s1 - 1 - i), i. split_and!; try lia.
      intros j Hj.
      replace (row + j * d.1) with (r + (i + j) * d.1) by lia.
      replace (col + j * d.2) with (c + (i + j) * d.2) by lia.
      apply Hline. lia.
    + rewrite (pl_frame _ _ _ _ Hpl) in Hcell by done.
      split_and!; [lia..|done].
  - intros [(p & r & c & d & Hp0 & Hd & Hline)|Hw].
    + exists p, r, c, d. split_and!; try done. intros i Hi.
      destruct (Hline i) as (Hr & Hc & Hcell); [lia|].
      split_and!; [lia..|]. rewrite (pl_frame _ _ _ _ Hpl); [done|].
      intros [= Hrow Hcol]. rewrite Hrow, Hcol, (pl_empty _ _ _ _ Hpl) in Hcell.
      congruence.
    + apply Hwin in Hw as (d & Hd%directions_axes & (x & y & Hx & Hy & Hw & Hline)).
      exists (current_player s), (row - y * d.1), (col - y * d.2), d.
      split_and!; try done. intros i Hi.
      replace (row - y * d.1 + i * d.1) with (row + (i - y) * d.1) by lia.
      replace (col - y * d.2 + i * d.2) with (col + (i - y) * d.2) by lia.
      apply Hline. lia.
Qed.

Lemma step_line (s : Connect4Env) (a : Z) (res : StepResult) (s' : Connect4Env) :
  well_shaped s → valid_player s → step s a = Some (res, s') →
  (has_line s' ↔ has_line s ∨ reward res = 1).
Proof.
  intros Hws Hp Hstep.
  destruct (legal_or_illegal s a res s' Hstep) as [Hlegal|Hill].
  - destruct (step_legal s a Hws Hp Hlegal)
      as (row & s1 & win & draw & _ & Hpl & _ & Hwin & _ & _ & Hout).
    rewrite Hout in Hstep. unfold outcome in Hstep.
    pose proof (placed_line s s1 row a win Hp Hpl Hwin) as Hline.
    destruct win; [|destruct draw]; injection Hstep as <- <-; simpl.
    + rewrite Hline. tauto.
    + rewrite Hline. split; [intros [|]; [by left|done]|intros [|]; [by left|done]].
    + change (has_line (set_current_player s1 (current_player s1 * -1)))
        with (has_line s1).
      rewrite Hline. split; [intros [|]; [by left|done]|intros [|]; [by left|done]].
  - rewrite (step_illegal s a Hill) in Hstep. injection Hstep as <- <-. simpl.
    split; [by left|intros [|]; done].
Qed.

Lemma run_line (cs : list Z) (s : Connect4Env) (rs : list StepResult)
    (s' : Connect4Env) :
  env_inv s → run_steps s cs = Some (rs, s') →
  (has_line s' ↔ has_line s ∨ Exists (λ r, reward r = 1) rs).
Proof.
  revert s rs. induction cs as [|a cs IH]; intros s rs Hinv; simpl.
  - intros [= <- <-]. rewrite Exists_nil. tauto.
  - destruct (step s a) as [[res s1]|] eqn:Hstep; [|done]. simpl.
    destruct (run_steps s1 cs) as [[rest s2]|] eqn:Hrun; [|done]. simpl.
    intros [= <- <-].
    rewrite (IH s1 rest (step_inv s a res s1 Hinv Hstep) Hrun).
    destruct Hinv as (Hws & Hp & _).
    rewrite (step_line s a res s1 Hws Hp Hstep), Exists_cons. tauto.
Qed.

(** X14: in a game played from [reset], with [win_length] positive, the
    board carries [win_length] pieces of one player in a row, horizontally,
    vertically or along either diagonal, exactly when some [step] of the
    game has returned the reward 1: the check around the placed cell
    misses no line, and a line once made stays. *)
Theorem line_on_board_iff_win_returned (s : Connect4Env) (o : list (list Z))
    (s0 : Connect4Env) (cs : list Z) (rs : list StepResult) (s' : Connect4Env) :
  reachable s → reset s = Some (o, s0) → 0 < win_length s →
  run_steps s0 cs = Some (rs, s') →
  (has_line s' ↔ Exists (λ r, reward r = 1) rs).
Proof.
  intros Hreach Hreset Hw Hrun.
  pose proof (reset_inv s o s0 Hreset) as Hinv0.
  rewrite (run_line cs s0 rs s' Hinv0 Hrun).
  assert (¬ has_line s0) as Hnone; [|tauto].
  unfold reset, np_zeros in Hreset. case_bool_decide as Hdims; [|done].
  injection Hreset as _ <-.
  intros (p & r & c & d & Hp0 & _ & Hline).
  destruct (Hline 0) as (_ & _ & Hcell); [simpl; lia|].
  simpl in Hcell. apply cell_zeros in Hcell. done.
Qed.

Lemma line_on_board_iff_win_returned_witness : has_line four_stacked.
Proof.
  apply (line_on_board_iff_win_returned fresh (board fresh) fresh
           [0; 1; 0; 1; 0; 1; 0]
           ltac:(run_results fresh [0; 1; 0; 1; 0; 1; 0])).
  - apply (reach_init 6 7 4). reflexivity.
  - reflexivity.
  - simpl. lia.
  - vm_compute. reflexivity.
  - do 6 apply Exists_cons_tl. apply Exists_cons_hd. reflexivity.
Defined.

(** ** Whose turn it is, and how many pieces each player has *)

Lemma pieces_of_insert (p : Z) (b : list (list Z)) (i j : nat) (l : list Z) (x : Z) :
  p ≠ 0 → b !! i = Some l → l !! j = Some 0 →
  pieces_of p (<[i := <[j := x]> l]> b) =
  (pieces_of p b + if decide (x = p) then 1 else 0)%nat.
Proof.
  intros Hp Hi Hj.
  assert (length (filter (λ v, v = p) (<[j := x]> l)) =
          (length (filter (λ v, v = p) l) + if decide (x = p) then 1 else 0)%nat)
    as Hrow.
  { clear Hi. revert j Hj. induction l as [|v l IH]; intros [|j] Hj; try done.
    - injection Hj as ->. simpl. rewrite !filter_cons.
      rewrite (decide_False (P := 0 = p)) by congruence.
      destruct (decide (x = p)); simpl; lia.
    - simpl in *. rewrite !filter_cons.
      destruct (decide (v = p)); simpl; rewrite IH by done; lia. }
  revert i Hi. induction b as [|l0 b IH]; intros [|i] Hi; try done.
  - injection Hi as ->. unfold pieces_of. simpl. rewrite Hrow. lia.
  - unfold pieces_of in *. simpl in *. rewrite IH by done. lia.
Qed.

Lemma pieces_of_zeros (p : Z) (n m : nat) :
  p ≠ 0 → pieces_of p (replicate n (replicate m 0)) = 0%nat.
Proof.
  intros Hp. unfold pieces_of. induction n as [|n IH]; simpl; [done|]. rewrite IH.
  clear IH. induction m as [|m IH]; simpl; [done|].
  by rewrite filter_cons_False by congruence.
Qed.

(** A step that returns [done] clear stores the mover's piece on an empty
    cell and hands the turn over. *)
Lemma nonterminal_step_board (s : Connect4Env) (a : Z) (res : StepResult)
    (s' : Connect4Env) :
  env_inv s → step s a = Some (res, s') → done res = false →
  ∃ (i j : nat) (l : list Z),
    board s !! i = Some l ∧ l !! j = Some 0 ∧
    board s' = <[i := <[j := current_player s]> l]> (board s) ∧
    current_player s' = - current_player s.
Proof.
  intros (Hws & Hp & _) Hstep Hdone.
  destruct (legal_or_illegal s a res s' Hstep) as [Hlegal|Hill].
  2: { rewrite (step_illegal s a Hill) in Hstep. by injection Hstep as <- <-. }
  destruct (place_piece_legal s a (current_player s) Hws Hlegal)
    as (row & l & Hrow & Hempty & _ & Hl & Hplace).
  destruct (step_legal s a Hws Hp Hlegal)
    as (row' & s1 & win & draw & Hplace' & Hpl & _ & _ & _ & _ & Hout).
  rewrite Hplace in Hplace'. injection Hplace' as <- <-.
  rewrite Hout in Hstep. unfold outcome in Hstep.
  destruct win; [|destruct draw]; injection Hstep as <- <-; try done.
  simpl. exists (Z.to_nat row), (Z.to_nat a), l. split_and!; try done.
  - apply cell_lookup in Hempty as (_ & _ & l' & Hl' & Hv). congruence.
  - by rewrite (int8_player s Hp).
  - lia.
Qed.

Lemma nonterminal_run_balance (cs : list Z) (s : Connect4Env)
    (rs : list StepResult) (s' : Connect4Env) :
  env_inv s → run_steps s cs = Some (rs, s') →
  Forall (λ r, done r = false) rs →
  (pieces_of 1%Z (board s) =
     pieces_of (-1)%Z (board s) + if decide (current_player s = 1%Z) then 0 else 1)%nat →
  current_player s' =
    (if Nat.even (length cs) then current_player s else - current_player s) ∧
  (pieces_of 1%Z (board s') =
     pieces_of (-1)%Z (board s') + if decide (current_player s' = 1%Z) then 0 else 1)%nat.
Proof.
  revert s rs. induction cs as [|a cs IH]; intros s rs Hinv; simpl length.
  - simpl. by intros [= _ <-] _ Hbal.
  - rewrite Nat.even_succ, <- Nat.negb_even. simpl run_steps.
    destruct (step s a) as [[res s1]|] eqn:Hstep; [|done]. simpl.
    destruct (run_steps s1 cs) as [[rest s2]|] eqn:Hrun; [|done]. simpl.
    intros [= <- <-] [Hdone Hrest]%Forall_cons Hbal.
    destruct (nonterminal_step_board s a res s1 Hinv Hstep Hdone)
      as (i & j & l & Hi & Hj & Hboard & Hflip).
    destruct (IH s1 rest (step_inv s a res s1 Hinv Hstep) Hrun Hrest)
      as [Hturn Hbal'].
    { rewrite Hboard, !pieces_of_insert, Hflip by done.
      destruct Hinv as (_ & [Hcp | Hcp] & _); rewrite Hcp in *;
        repeat case_decide; lia. }
    split; [|done]. rewrite Hturn, Hflip.
    destruct (Nat.even (length cs)); simpl; lia.
Qed.

(** X15: in a game played from [reset] in which no step has returned
    [done] yet, player one is to move after an even number of steps and
    player two after an odd number, and player one has as many pieces on
    the board as player two, plus one when player two is to move. *)
Theorem turn_and_piece_balance (s : Connect4Env) (o : list (list Z))
    (s0 : Connect4Env) (cs : list Z) (rs : list StepResult) (s' : Connect4Env) :
  reachable s → reset s = Some (o, s0) →
  run_steps s0 cs = Some (rs, s') →
  Forall (λ r, done r = false) rs →
  current_player s' = (if Nat.even (length cs) then 1 else -1) ∧
  (pieces_of 1%Z (board s') =
     pieces_of (-1)%Z (board s') + if decide (current_player s' = 1%Z) then 0 else 1)%nat.
Proof.
  intros Hreach Hreset Hrun Hdone.
  pose proof (reset_inv s o s0 Hreset) as Hinv0.
  unfold reset, np_zeros in Hreset. case_bool_decide as Hdims; [|done].
  injection Hreset as _ <-.
  apply (nonterminal_run_balance cs _ rs s' Hinv0 Hrun Hdone).
  simpl. by rewrite !pieces_of_zeros.
Qed.

Lemma turn_and_piece_balance_witness :
  current_player nearly_full = (if Nat.even (length [1; 0; 0]) then 1 else -1) ∧
  (pieces_of 1%Z (board nearly_full) =
     pieces_of (-1)%Z (board nearly_full) +
     if decide (current_player nearly_full = 1%Z) then 0 else 1)%nat.
Proof.
  apply (turn_and_piece_balance
           (mkEnv 2 2 3 (replicate 2 (replicate 2 0)) 1)
           (replicate 2 (replicate 2 0))
           (mkEnv 2 2 3 (replicate 2 (replicate 2 0)) 1) [1; 0; 0]
           ltac:(run_results (mkEnv 2 2 3 (replicate 2 (replicate 2 0)) 1) [1; 0; 0])).
  - apply (reach_init 2 2 3). reflexivity.
  - reflexivity.
  - vm_compute. reflexivity.
  - repeat constructor.
Defined.
